(** * Most-played-artists playlist generator: the selection engine

    A shallow embedding of [generator.py]: the event filter
    ([_filter_music_rows]), the artist pattern filter
    ([_apply_artist_patterns]), the aggregation, ranking and
    de-duplication stage ([_aggregate_and_order]) and the part of
    [create_playlist] that chains them; then the loaders
    ([_load_artist_patterns], [_load_history]), the name of the CSV
    file ([_sanitize_filename]), the calls [_create_playlist_and_add]
    makes, and the command line of [cli.py] ([parse_args], the two
    validations and [main]).

    Data frames are lists of records, one record per row, in row order.
    A missing cell (None / NaN / NaT) is [None].  Strings are byte
    strings (UTF-8), whose byte-wise lexicographic order coincides with
    Python's code-point order.  Durations and sums are integers. *)

From Stdlib Require Import List ZArith Bool String Ascii Lia.
From Stdlib Require Import Permutation Sorted ListSet DecimalString.
Import ListNotations.

Local Open Scope string_scope.
Local Open Scope list_scope.
Local Open Scope Z_scope.

(* ================================================================== *)
(** ** Ordered keys *)

(** The order pandas uses to lay out the groups of a [groupby]
    (default [sort=True]): ascending on every key column, a missing
    value after every present one ([dropna=False]). *)
Class KeyOrder (K : Type) := kcmp : K -> K -> comparison.

#[export] Instance string_order : KeyOrder string := String.compare.

#[export] Instance option_order {K} `{KeyOrder K} : KeyOrder (option K) :=
  fun a b =>
    match a, b with
    | Some x, Some y => kcmp x y
    | Some _, None => Lt
    | None, Some _ => Gt
    | None, None => Eq
    end.

#[export] Instance pair_order {K1 K2} `{KeyOrder K1} `{KeyOrder K2}
  : KeyOrder (K1 * K2) :=
  fun a b =>
    match kcmp (fst a) (fst b) with
    | Eq => kcmp (snd a) (snd b)
    | c => c
    end.

(* ================================================================== *)
(** ** Stable sorting *)

Section StableSort.
Context {A : Type} (le : A -> A -> bool).

(** [x] goes in front of the first element it does not come after, so
    in front of every element it ties with. *)
Fixpoint insert_sorted (x : A) (l : list A) : list A :=
  match l with
  | [] => [x]
  | y :: l' => if le x y then x :: l else y :: insert_sorted x l'
  end.

(** The stable sort of [l] by [le]: the sorted rearrangement of [l]
    that keeps tied elements in their order in [l].  That
    rearrangement is unique, so every stable algorithm (pandas'
    [kind="mergesort"], its [lexsort_indexer]) computes this list. *)
Definition stable_sort (l : list A) : list A :=
  fold_right insert_sorted [] l.
End StableSort.

(* ================================================================== *)
(** ** Rows *)

(** A row of the frame [_load_history] returns.  [ts] holds the year of
    the parsed timestamp, the only component the engine reads; a null or
    unparseable timestamp is [NaT], here [None]. *)
Record RawEvent := mkRaw {
  ts : option Z;
  ms_played : option Z;
  master_metadata_track_name : option string;
  master_metadata_album_artist_name : option string;
  spotify_track_uri : option string;
  episode_name : option string;
  audiobook_title : option string
}.

(** A row of the frame [_filter_music_rows] returns: columns
    [ts, ms, artist, track, uri]. *)
Record Row := mkRow {
  row_ts : option Z;
  ms : option Z;
  artist : string;
  track : string;
  uri : option string
}.

(** A row of [artist_totals]: columns [artist, artist_ms]. *)
Record ArtistTotal := mkArtistTotal {
  at_artist : string;
  at_artist_ms : Z
}.

(** A row of [track_totals]: columns [artist, track, uri, track_ms]. *)
Record TrackTotal := mkTrackTotal {
  tt_artist : string;
  tt_track : string;
  tt_uri : option string;
  track_ms : Z
}.

(** A row of [track_totals] after the merge: the track total and the
    [artist_ms] of its artist. *)
Record MergedRow := mkMerged {
  totals : TrackTotal;
  artist_ms : Z
}.

(** A row of [ordered]: a merged row and its [rank_in_artist]. *)
Record RankedRow := mkRanked {
  merged : MergedRow;
  rank_in_artist : Z
}.

Definition isna {A} (x : option A) : bool :=
  match x with None => true | Some _ => false end.

Definition notna {A} (x : option A) : bool := negb (isna x).

(** [Series.fillna(0)] on one cell. *)
Definition fillna0 (x : option Z) : Z :=
  match x with Some v => v | None => 0 end.

(** Python truthiness of an [Optional[int]]: [None] and [0] are false. *)
Definition truthy (x : option Z) : bool :=
  match x with Some v => negb (v =? 0) | None => false end.

(* ================================================================== *)
(** ** Event filter: [_filter_music_rows] *)

(** The row selection, before the columns are renamed. *)
Definition filter_music_events (df : list RawEvent) (min_play_ms : Z)
    (year_start year_end : option Z) : list RawEvent :=
  let df := filter (fun e => isna (episode_name e) && isna (audiobook_title e)) df in
  let df := filter (fun e => notna (master_metadata_track_name e)
                             && notna (master_metadata_album_artist_name e)) df in
  let df := filter (fun e => min_play_ms <=? fillna0 (ms_played e)) df in
  if truthy year_start || truthy year_end then
    let df := filter (fun e => notna (ts e)) df in
    let df :=
      if truthy year_start then
        filter (fun e => match ts e, year_start with
                         | Some y, Some ys => ys <=? y
                         | _, _ => false
                         end) df
      else df in
    if truthy year_end then
      filter (fun e => match ts e, year_end with
                       | Some y, Some ye => y <=? ye
                       | _, _ => false
                       end) df
    else df
  else df.

(** The renaming and column selection at the end of
    [_filter_music_rows].  Rows that reach it have a track and an
    artist. *)
Definition to_row (e : RawEvent) : option Row :=
  match master_metadata_album_artist_name e, master_metadata_track_name e with
  | Some a, Some t => Some (mkRow (ts e) (ms_played e) a t (spotify_track_uri e))
  | _, _ => None
  end.

Fixpoint select_columns (df : list RawEvent) : list Row :=
  match df with
  | [] => []
  | e :: df' =>
      match to_row e with
      | Some r => r :: select_columns df'
      | None => select_columns df'
      end
  end.

Definition _filter_music_rows (df : list RawEvent) (min_play_ms : Z)
    (year_start year_end : option Z) : list Row :=
  select_columns (filter_music_events df min_play_ms year_start year_end).

(* ================================================================== *)
(** ** Pattern filter: [_apply_artist_patterns] *)

Local Open Scope char_scope.

(** The characters [re.escape] puts a backslash in front of:
    [()[]{}?*+-|^$\.&~#], the space and the white-space controls
    tab, line feed, vertical tab, form feed, carriage return. *)
Definition special_chars : list ascii :=
  ["("; ")"; "["; "]"; "{"; "}"; "?"; "*"; "+"; "-"; "|"; "^"; "$";
   "\"; "."; "&"; "~"; "#"; " ";
   "009"; "010"; "011"; "012"; "013"].

Definition is_special (c : ascii) : bool :=
  existsb (Ascii.eqb c) special_chars.

Fixpoint re_escape (p : string) : string :=
  match p with
  | EmptyString => EmptyString
  | String c p' =>
      if is_special c then String "\" (String c (re_escape p'))
      else String c (re_escape p')
  end.

(** The characters that mean something other than themselves in a
    regular expression when they are not escaped. *)
Definition meta_chars : list ascii :=
  ["."; "\"; "["; "{"; "("; ")"; "*"; "+"; "?"; "^"; "$"; "|"].

Definition is_meta (c : ascii) : bool :=
  existsb (Ascii.eqb c) meta_chars.

Definition in_range (lo hi c : ascii) : bool :=
  (nat_of_ascii lo <=? nat_of_ascii c)%nat && (nat_of_ascii c <=? nat_of_ascii hi)%nat.

Definition is_alnum (c : ascii) : bool :=
  in_range "a" "z" c || in_range "A" "Z" c || in_range "0" "9" c.

Definition push_char (c : ascii) (alts : list string) : list string :=
  match alts with
  | a :: rest => String c a :: rest
  | [] => [String c EmptyString]
  end.

(** [re.compile] on the fragment of the regular-expression language
    made of plain characters, backslash-escaped punctuation and the
    alternation bar: the result is the list of alternatives, each a
    literal string.  Any other construct (an unescaped metacharacter, a
    backslash before a letter or digit, a trailing backslash) is outside
    the fragment: [None]. *)
Fixpoint re_compile (s : string) : option (list string) :=
  match s with
  | EmptyString => Some [EmptyString]
  | String c s' =>
      if Ascii.eqb c "\" then
        match s' with
        | EmptyString => None
        | String d s'' =>
            if is_alnum d then None
            else option_map (push_char d) (re_compile s'')
        end
      else if Ascii.eqb c "|" then
        option_map (cons EmptyString) (re_compile s')
      else if is_meta c then None
      else option_map (push_char c) (re_compile s')
  end.

(** Case folding of [re.IGNORECASE], on the ASCII letters; every other
    byte is compared as it is. *)
Definition lower (c : ascii) : ascii :=
  if in_range "A" "Z" c then ascii_of_nat (nat_of_ascii c + 32) else c.

Definition ci_eqb (a b : ascii) : bool := Ascii.eqb (lower a) (lower b).

(** The literal [p] matches at the start of [s], case ignored. *)
Fixpoint ci_match_here (p s : string) : bool :=
  match p, s with
  | EmptyString, _ => true
  | String _ _, EmptyString => false
  | String a p', String b s' => ci_eqb a b && ci_match_here p' s'
  end.

(** [re.search] for one literal alternative: a match at some offset. *)
Fixpoint ci_search (p s : string) : bool :=
  ci_match_here p s
  || match s with
     | EmptyString => false
     | String _ s' => ci_search p s'
     end.

(** One cell of [Series.str.contains(regex, case=False)], for the
    compiled alternatives: some alternative is found in [s]. *)
Definition str_contains (alts : list string) (s : string) : bool :=
  existsb (fun p => ci_search p s) alts.

Local Close Scope char_scope.

(** *** Exceptions and the step banners on standard output *)

(** [ReError] is what [re.compile] raises; here it also stands for an
    expression outside the fragment [re_compile] covers. *)
Inductive exn :=
| ValueError (msg : string)
| RuntimeError (msg : string)
| ReError (msg : string).

(** A computation prints on standard output and then returns or
    raises.  Of the output, the banner each step prints when it starts
    is kept, shortened to its tag ("[STEP 2/6]"). *)
Definition M (A : Type) : Type := list string * (exn + A).

Definition ret {A} (x : A) : M A := ([], inr x).

Definition raise {A} (e : exn) : M A := ([], inl e).

Definition print (line : string) : M unit := ([line], inr tt).

Definition bind {A B} (c : M A) (k : A -> M B) : M B :=
  match c with
  | (out, inl e) => (out, inl e)
  | (out, inr x) => let '(out', r) := k x in (out ++ out', r)
  end.

Declare Scope run_scope.
Delimit Scope run_scope with run.
Notation "x <- c ;; k" := (bind c (fun x => k))
  (at level 61, c at next level, right associativity) : run_scope.
Notation "c ;; k" := (bind c (fun _ => k))
  (at level 61, right associativity) : run_scope.

Definition stdout {A} (c : M A) : list string := fst c.
Definition outcome {A} (c : M A) : exn + A := snd c.

Definition mode_error : exn :=
  ValueError "artists_filter_mode must be 'exclude' or 'include'.".

(** [df.loc[mask]]. *)
Fixpoint loc (df : list Row) (mask : list bool) : list Row :=
  match df, mask with
  | r :: df', b :: mask' => if b then r :: loc df' mask' else loc df' mask'
  | _, _ => []
  end.

Definition _apply_artist_patterns (df : list Row) (patterns : list string)
    (mode : string) : M (list Row) :=
  match patterns with
  | [] => ret df
  | _ =>
      let regex := String.concat "|" (map re_escape patterns) in
      match re_compile regex with
      | None => raise (ReError "pattern outside the modelled fragment")
      | Some alts =>
          let matched := map (fun r => str_contains alts (artist r)) df in
          if String.eqb mode "include" then ret (loc df matched)
          else if String.eqb mode "exclude" then ret (loc df (map negb matched))
          else raise mode_error
      end
  end.

(* ================================================================== *)
(** ** Aggregation and ordering: [_aggregate_and_order] *)

(** *** [groupby(keys, dropna=False)["ms"].sum()] *)

(** The groups are kept in ascending key order; a row adds its value to
    the sum of its group, or opens the group at its place. *)
Fixpoint group_add {K} `{KeyOrder K} (k : K) (v : Z) (g : list (K * Z))
  : list (K * Z) :=
  match g with
  | [] => [(k, v)]
  | (k', s) :: g' =>
      match kcmp k k' with
      | Lt => (k, v) :: g
      | Eq => (k', s + v) :: g'
      | Gt => (k', s) :: group_add k v g'
      end
  end.

Definition group_step {R K} `{KeyOrder K} (key : R -> K) (val : R -> Z)
    (g : list (K * Z)) (r : R) : list (K * Z) :=
  group_add (key r) (val r) g.

Definition groupby_sum {R K} `{KeyOrder K} (key : R -> K) (val : R -> Z)
    (df : list R) : list (K * Z) :=
  fold_left (group_step key val) df [].

(** [sum] skips missing values. *)
Definition ms_value (r : Row) : Z := fillna0 (ms r).

Definition artist_totals_grouped (df : list Row) : list ArtistTotal :=
  map (fun g => mkArtistTotal (fst g) (snd g)) (groupby_sum artist ms_value df).

(** *** [Series.sort_values(ascending=False)]

    The call leaves [kind] at its default, [quicksort], which promises a
    sorted rearrangement and nothing about the order of equal values.
    The engine is therefore written over any sort that keeps this
    contract. *)
Class SortValues := sort_values_desc : list ArtistTotal -> list ArtistTotal.

Definition ms_desc (a b : ArtistTotal) : Prop := at_artist_ms b <= at_artist_ms a.

Class SortValuesSpec (SV : SortValues) : Prop := {
  sort_values_perm : forall l, Permutation (sort_values_desc l) l;
  sort_values_sorted : forall l, StronglySorted ms_desc (sort_values_desc l)
}.

(** The sort that leaves equal values in index order. *)
Definition ms_desc_b (a b : ArtistTotal) : bool := at_artist_ms b <=? at_artist_ms a.

Definition stable_sort_values : SortValues := stable_sort ms_desc_b.

(** [DataFrame.head(n)]: the first [n] rows, and for a negative [n] all
    rows but the last [-n]. *)
Definition head {A} (n : Z) (l : list A) : list A :=
  if 0 <=? n then firstn (Z.to_nat n) l
  else firstn (List.length l - Z.to_nat (- n)) l.

Section Engine.
Context {SV : SortValues}.

Definition artist_totals (df : list Row) : list ArtistTotal :=
  sort_values_desc (artist_totals_grouped df).

Definition artist_top (df : list Row) (top_artists : Z) : list ArtistTotal :=
  head top_artists (artist_totals df).

Definition track_key (r : Row) : string * string * option string :=
  (artist r, track r, uri r).

Definition track_totals (df : list Row) : list TrackTotal :=
  map (fun g => mkTrackTotal (fst (fst (fst g))) (snd (fst (fst g)))
                             (snd (fst g)) (snd g))
      (groupby_sum track_key ms_value df).

(** The floor on a track's total. *)
Definition track_totals_floor (df : list Row) (min_track_total_ms : option Z)
  : list TrackTotal :=
  match min_track_total_ms with
  | Some floor => filter (fun t => floor <? track_ms t) (track_totals df)
  | None => track_totals df
  end.

(** [left.merge(right, on="artist", how="inner")]: every left row,
    in left order, with every right row of the same artist. *)
Definition merge_inner (left : list TrackTotal) (right : list ArtistTotal)
  : list MergedRow :=
  flat_map (fun t =>
              map (fun a => mkMerged t (at_artist_ms a))
                  (filter (fun a => String.eqb (at_artist a) (tt_artist t)) right))
           left.

Definition track_totals_merged (df : list Row) (top_artists : Z)
    (min_track_total_ms : option Z) : list MergedRow :=
  merge_inner (track_totals_floor df min_track_total_ms)
              (artist_top df top_artists).

(** [sort_values(by=["artist_ms", "track_ms"], ascending=[False, False],
    kind="mergesort")]. *)
Definition by_artist_ms_track_ms (a b : MergedRow) : bool :=
  (artist_ms b <? artist_ms a)
  || ((artist_ms a =? artist_ms b)
      && (track_ms (totals b) <=? track_ms (totals a))).

Definition track_totals_sorted (df : list Row) (top_artists : Z)
    (min_track_total_ms : option Z) : list MergedRow :=
  stable_sort by_artist_ms_track_ms
              (track_totals_merged df top_artists min_track_total_ms).

Definition same_artist (a b : MergedRow) : bool :=
  String.eqb (tt_artist (totals a)) (tt_artist (totals b)).

(** [groupby("artist")["track_ms"].rank(method="first", ascending=False)]:
    the rank of a row is one more than the number of rows of its group
    with a larger value, or with the same value and an earlier place
    in the frame. *)
Fixpoint rank_first_desc (before after : list MergedRow) : list RankedRow :=
  match after with
  | [] => []
  | r :: after' =>
      let ahead :=
        filter (fun x => same_artist x r
                         && (track_ms (totals r) <=? track_ms (totals x))) before
        ++ filter (fun x => same_artist x r
                            && (track_ms (totals r) <? track_ms (totals x))) after' in
      mkRanked r (1 + Z.of_nat (List.length ahead))
      :: rank_first_desc (before ++ [r]) after'
  end.

Definition track_totals_ranked (df : list Row) (top_artists : Z)
    (min_track_total_ms : option Z) : list RankedRow :=
  rank_first_desc [] (track_totals_sorted df top_artists min_track_total_ms).

(** [sort_values(by=["artist_ms", "rank_in_artist"], ascending=[False, True],
    kind="mergesort")]. *)
Definition by_artist_ms_rank (a b : RankedRow) : bool :=
  (artist_ms (merged b) <? artist_ms (merged a))
  || ((artist_ms (merged a) =? artist_ms (merged b))
      && (rank_in_artist a <=? rank_in_artist b)).

Definition ordered (df : list Row) (top_artists tracks_per_artist : Z)
    (min_track_total_ms : option Z) : list RankedRow :=
  stable_sort by_artist_ms_rank
    (filter (fun r => rank_in_artist r <=? tracks_per_artist)
            (track_totals_ranked df top_artists min_track_total_ms)).

Definition row_uri (r : RankedRow) : option string := tt_uri (totals (merged r)).

(** The walk over [ordered["uri"]] with the set [seen]. *)
Fixpoint dedup_walk (col : list (option string)) (seen : set string)
    (uris : list string) : list string :=
  match col with
  | [] => uris
  | None :: col' => dedup_walk col' seen uris
  | Some u :: col' =>
      if set_mem string_dec u seen then dedup_walk col' seen uris
      else dedup_walk col' (set_add string_dec u seen) (uris ++ [u])
  end.

Definition dedup_uris (table : list RankedRow) : list string :=
  dedup_walk (map row_uri table) (empty_set string) [].

Definition _aggregate_and_order (df : list Row) (top_artists tracks_per_artist : Z)
    (min_track_total_ms : option Z) : list RankedRow * list string :=
  let table := ordered df top_artists tracks_per_artist min_track_total_ms in
  (table, dedup_uris table).

(** *** The pipeline: [create_playlist] up to the hand-over to the
    writers.  [patterns] is what [_load_artist_patterns] returned and
    [df_raw] what [_load_history] returned; each step's banner is
    printed when the step starts. *)
Definition create_playlist (patterns : list string) (df_raw : list RawEvent)
    (year_start year_end : option Z) (top_artists tracks_per_artist : Z)
    (min_play_ms : Z) (min_track_total_ms : option Z)
    (artists_filter_mode : string) : M (list RankedRow * list string) :=
  (print "[STEP 1/6]" ;;
   print "[STEP 2/6]" ;;
   let df := _filter_music_rows df_raw min_play_ms year_start year_end in
   match df with
   | [] => raise (RuntimeError "No valid music rows after filtering.")
   | _ =>
       df <- match patterns with
             | [] => ret df
             | _ => _apply_artist_patterns df patterns artists_filter_mode
             end ;;
       print "[STEP 3/6]" ;;
       let res := _aggregate_and_order df top_artists tracks_per_artist
                                       min_track_total_ms in
       match snd res with
       | [] => raise (RuntimeError "No valid Spotify track URIs to add.")
       | _ => ret res
       end
   end)%run.
End Engine.

(* ================================================================== *)
(** * Vocabulary of the properties *)

(** ** Keys and grouped tables *)

Class KeyOrderLaws (K : Type) `{KeyOrder K} : Prop := {
  kcmp_eq : forall a b : K, kcmp a b = Eq <-> a = b;
  kcmp_antisym : forall a b : K, kcmp b a = CompOpp (kcmp a b);
  kcmp_trans : forall a b c : K, kcmp a b = Lt -> kcmp b c = Lt -> kcmp a c = Lt
}.

Definition sum_Z (l : list Z) : Z := fold_right Z.add 0 l.

Definition keqb {K} `{KeyOrder K} (a b : K) : bool :=
  match kcmp a b with Eq => true | _ => false end.

(** The sum of the values of the rows of [df] whose key is [k]. *)
Definition sum_where {R K} `{KeyOrder K} (key : R -> K) (val : R -> Z)
    (k : K) (df : list R) : Z :=
  sum_Z (map val (filter (fun r => keqb (key r) k) df)).

Definition key_lt {K} `{KeyOrder K} (a b : K * Z) : Prop :=
  kcmp (fst a) (fst b) = Lt.

(** The sum stored under [k] in a grouped table. *)
Definition stored {K} `{KeyOrder K} (k : K) (g : list (K * Z)) : Z :=
  sum_Z (map snd (filter (fun e => keqb (fst e) k) g)).


(** The summed listening time of the track with key [k] in [df]. *)
Definition track_total_ms (k : string * string * option string) (df : list Row) : Z :=
  sum_where track_key ms_value k df.

(** ** The event filter *)

Definition is_podcast_or_audiobook (e : RawEvent) : bool :=
  notna (episode_name e) || notna (audiobook_title e).

(** The year condition as the specification words it: no condition when
    no bound is set; otherwise a timestamp is required and its year lies
    within the bounds that are set. *)
Definition year_within (year_start year_end : option Z) (t : option Z) : bool :=
  match year_start, year_end with
  | None, None => true
  | _, _ =>
      match t with
      | None => false
      | Some y =>
          match year_start with Some ys => ys <=? y | None => true end
          && match year_end with Some ye => y <=? ye | None => true end
      end
  end.

(** The conditions under which the specification lets an event pass. *)
Definition survives (min_play_ms : Z) (year_start year_end : option Z)
    (e : RawEvent) : bool :=
  negb (is_podcast_or_audiobook e)
  && notna (master_metadata_album_artist_name e)
  && notna (master_metadata_track_name e)
  && (min_play_ms <=? fillna0 (ms_played e))
  && year_within year_start year_end (ts e).

(** ** The pattern filter *)

Fixpoint lower_string (s : string) : string :=
  match s with
  | EmptyString => EmptyString
  | String c s' => String (lower c) (lower_string s')
  end.


(** ** The artist selector *)


(** Artist [x] is in the selection [top]. *)
Definition in_top (top : list ArtistTotal) (x : string) : bool :=
  existsb (fun a => String.eqb (at_artist a) x) top.

(** The index of the first row of [df] by artist [x]. *)
Fixpoint first_seen (x : string) (df : list Row) : option nat :=
  match df with
  | [] => None
  | r :: df' =>
      if String.eqb (artist r) x then Some 0%nat
      else option_map S (first_seen x df')
  end.

(** The tie rule as the claim words it: of two artists with equal
    totals, the one ranked first is the one seen first in the input. *)
Definition ties_by_first_appearance (df : list Row) (order : list ArtistTotal)
  : Prop :=
  forall l1 a l2 b l3,
    order = l1 ++ a :: l2 ++ b :: l3 ->
    at_artist_ms a = at_artist_ms b ->
    exists i j, first_seen (at_artist a) df = Some i
                /\ first_seen (at_artist b) df = Some j /\ (i < j)%nat.

(** ** The track ranker *)

Definition tt_key (t : TrackTotal) : string * string * option string :=
  (tt_artist t, tt_track t, tt_uri t).

(** The order of the rows of [track_totals]: by artist, then track,
    then identifier, a missing identifier last. *)
Definition key_before (t1 t2 : TrackTotal) : Prop :=
  kcmp (tt_key t1) (tt_key t2) = Lt.

Definition key_ltb (k1 k2 : string * string * option string) : bool :=
  match kcmp k1 k2 with Lt => true | _ => false end.

(** Within a frame, rows of one artist carry one [artist_ms]. *)
Definition one_artist_ms (F : list MergedRow) : Prop :=
  forall r1 r2, In r1 F -> In r2 F -> same_artist r1 r2 = true ->
                artist_ms r1 = artist_ms r2.

(** In a frame in the order of the sort, the rank of a row is its place
    among the rows of its artist. *)
Fixpoint rank_by_position (before after : list MergedRow) : list RankedRow :=
  match after with
  | [] => []
  | r :: after' =>
      mkRanked r (1 + Z.of_nat (List.length
                                  (filter (fun x => same_artist x r) before)))
      :: rank_by_position (before ++ [r]) after'
  end.

(** [x] comes before [r] in the ranking of their artist: a larger
    total, or the same total and a smaller key (track, then
    identifier). *)
Definition outranks (x r : MergedRow) : bool :=
  same_artist x r
  && ((track_ms (totals r) <? track_ms (totals x))
      || ((track_ms (totals x) =? track_ms (totals r))
          && key_ltb (tt_key (totals x)) (tt_key (totals r)))).

(** The index of the first row of [df] for the track with key [k]. *)
Fixpoint first_seen_track (k : string * string * option string) (df : list Row)
  : option nat :=
  match df with
  | [] => None
  | r :: df' =>
      match kcmp (track_key r) k with
      | Eq => Some 0%nat
      | _ => option_map S (first_seen_track k df')
      end
  end.

(** The tie rule as the claim words it: of two tracks of an artist with
    equal totals, the one seen first in the input gets the smaller
    rank. *)
Definition track_ties_by_first_seen (df : list Row) (ranked : list RankedRow)
  : Prop :=
  forall r1 r2 i j,
    In r1 ranked -> In r2 ranked ->
    same_artist (merged r1) (merged r2) = true ->
    track_ms (totals (merged r1)) = track_ms (totals (merged r2)) ->
    first_seen_track (tt_key (totals (merged r1))) df = Some i ->
    first_seen_track (tt_key (totals (merged r2))) df = Some j ->
    (i < j)%nat ->
    rank_in_artist r1 < rank_in_artist r2.

(** ** The final table and the identifier sequence *)

Definition row_artist (r : RankedRow) : string := tt_artist (totals (merged r)).

(** Descending [artist_ms], then ascending [rank_in_artist]. *)
Definition final_order (a b : RankedRow) : Prop :=
  artist_ms (merged b) < artist_ms (merged a)
  \/ (artist_ms (merged a) = artist_ms (merged b)
      /\ rank_in_artist a <= rank_in_artist b).

Definition has_sort_key (k1 k2 : Z) (r : RankedRow) : bool :=
  (artist_ms (merged r) =? k1) && (rank_in_artist r =? k2).

(** The first occurrence of [x] in [l] comes before every occurrence
    of [y]. *)
Definition precedes {A} (x y : A) (l : list A) : Prop :=
  exists l1 l2, l = l1 ++ x :: l2 /\ ~ In x l1 /\ ~ In y l1.

(** ** Sample inputs *)

Definition event_without_timestamp : RawEvent :=
  mkRaw None (Some 60000) (Some "T") (Some "A") (Some "spotify:track:1") None None.

Definition event_of_2024 : RawEvent :=
  mkRaw (Some 2024) (Some 60000) (Some "T") (Some "A") (Some "spotify:track:1") None None.

Definition two_artists : list Row :=
  [mkRow (Some 2024) (Some 40000) "AC/DC (Live)" "T1" (Some "spotify:track:1");
   mkRow (Some 2024) (Some 40000) "Beatles" "T2" (Some "spotify:track:2")].

Definition b_then_a : list Row :=
  [mkRow (Some 2024) (Some 40000) "B" "T1" (Some "spotify:track:1");
   mkRow (Some 2024) (Some 40000) "A" "T2" (Some "spotify:track:2")].

Definition a_then_b : list Row :=
  [mkRow (Some 2024) (Some 40000) "A" "T2" (Some "spotify:track:2");
   mkRow (Some 2024) (Some 40000) "B" "T1" (Some "spotify:track:1")].

Definition t2_then_t1 : list Row :=
  [mkRow (Some 2024) (Some 20000) "A" "T2" (Some "spotify:track:2");
   mkRow (Some 2024) (Some 20000) "A" "T1" (Some "spotify:track:1")].

Definition floor_rows : list Row :=
  [mkRow (Some 2024) (Some 50000) "A" "T1" (Some "spotify:track:1");
   mkRow (Some 2024) (Some 50001) "A" "T2" (Some "spotify:track:2")].

Definition three_artists : list Row :=
  [mkRow (Some 2024) (Some 90000) "A" "T1" (Some "spotify:track:1");
   mkRow (Some 2024) (Some 80000) "A" "T2" (Some "spotify:track:2");
   mkRow (Some 2024) (Some 70000) "B" "T3" (Some "spotify:track:3");
   mkRow (Some 2024) (Some 60000) "C" "T4" None;
   mkRow (Some 2024) (Some 50000) "C" "T5" (Some "spotify:track:1")].

(** ** Proof steps *)

(** Turns boolean comparisons among the hypotheses into order facts. *)
Ltac bool_to_Z :=
  repeat match goal with
         | H : _ || _ = true |- _ => apply orb_true_iff in H
         | H : _ && _ = true |- _ => apply andb_true_iff in H
         | H : _ \/ _ |- _ => destruct H
         | H : _ /\ _ |- _ => destruct H
         | H : (_ <? _) = true |- _ => apply Z.ltb_lt in H
         | H : (_ <=? _) = true |- _ => apply Z.leb_le in H
         | H : (_ =? _) = true |- _ => apply Z.eqb_eq in H
         | H : (_ <? _) = false |- _ => apply Z.ltb_ge in H
         | H : (_ <=? _) = false |- _ => apply Z.leb_gt in H
         | H : (_ =? _) = false |- _ => apply Z.eqb_neq in H
         end.

(* ================================================================== *)
(** * The loaders, the writers and the command line *)

(** ** White space *)

(** A white-space character, as [str.strip] and the class [\s] see it:
    the space and the controls 9 to 13 and 28 to 31.  The white-space
    characters beyond ASCII are no single bytes and are left as they
    are. *)
Definition is_space (c : ascii) : bool :=
  let n := nat_of_ascii c in
  ((n =? 32) || ((9 <=? n) && (n <=? 13)) || ((28 <=? n) && (n <=? 31)))%nat.

Fixpoint lstrip (s : string) : string :=
  match s with
  | EmptyString => EmptyString
  | String c s' => if is_space c then lstrip s' else s
  end.

Fixpoint rstrip (s : string) : string :=
  match s with
  | EmptyString => EmptyString
  | String c s' =>
      match rstrip s' with
      | EmptyString => if is_space c then EmptyString else String c EmptyString
      | r => String c r
      end
  end.

(** [str.strip()]. *)
Definition strip (s : string) : string := rstrip (lstrip s).

(** ** The file system the loaders read *)

(** [read_lines p] is the sequence of lines of the text file at [p], and
    [None] where [os.path.isfile(p)] is false; [read_json p] is the
    frame [pd.read_json] yields for [p], its timestamps converted, and
    [None] where the call raises. *)
Record FileSystem := mkFileSystem {
  read_lines : string -> option (list string);
  isdir : string -> bool;
  listdir : string -> list string;
  read_json : string -> option (list RawEvent)
}.

Inductive io_exn :=
| FileNotFoundError (msg : string)
| Raised (e : exn).

(** ** [_load_artist_patterns] *)

Definition pattern_of_line (line : string) : list string :=
  let s := strip line in
  if String.eqb s "" || String.prefix "#" s then [] else [s].

Definition _load_artist_patterns (fs : FileSystem) (path : option string)
  : io_exn + list string :=
  match path with
  | None => inr []
  | Some p =>
      if String.eqb p "" then inr []
      else match read_lines fs p with
           | None => inl (FileNotFoundError ("Artists filter file not found: " ++ p))
           | Some lines => inr (flat_map pattern_of_line lines)
           end
  end.

(** ** [_load_history] *)

(** [s.endswith(suffix)]. *)
Fixpoint ends_with (suffix s : string) : bool :=
  String.eqb s suffix
  || match s with
     | EmptyString => false
     | String _ s' => ends_with suffix s'
     end.

(** [os.path.join] of two components, on POSIX. *)
Definition path_join (a b : string) : string :=
  if String.prefix "/" b then b
  else if String.eqb a "" || ends_with "/" a then (a ++ b)%string
       else (a ++ "/" ++ b)%string.

Definition is_json (f : string) : bool := ends_with ".json" (lower_string f).

Fixpoint read_frames (read : string -> option (list RawEvent)) (files : list string)
  : list (list RawEvent) :=
  match files with
  | [] => []
  | path :: files' =>
      match read path with
      | Some part => part :: read_frames read files'
      | None => read_frames read files'
      end
  end.

Definition json_files (fs : FileSystem) (source_dir : string) : list string :=
  stable_sort String.leb
    (map (path_join source_dir) (filter is_json (listdir fs source_dir))).

Definition _load_history (fs : FileSystem) (source_dir : string)
  : io_exn + list RawEvent :=
  if negb (isdir fs source_dir)
  then inl (FileNotFoundError ("Source directory not found: " ++ source_dir))
  else
    match json_files fs source_dir with
    | [] => inl (FileNotFoundError ("No JSON files found in: " ++ source_dir))
    | files =>
        match read_frames (read_json fs) files with
        | [] => inl (Raised (RuntimeError "No readable JSON files."))
        | frames => inr (List.concat frames)
        end
    end.

(** ** [_sanitize_filename] and the name of the CSV file *)

Local Open Scope char_scope.

(** The characters of the class in the first substitution: backslash,
    slash, colon, star, question mark, double quote, the angle brackets
    and the bar. *)
Definition forbidden_chars : list ascii :=
  ["\"; "/"; ":"; "*"; "?"; "034"; "<"; ">"; "|"].

Definition is_forbidden (c : ascii) : bool :=
  existsb (Ascii.eqb c) forbidden_chars.

(** The first substitution: an underscore for every character of the
    class. *)
Fixpoint replace_forbidden (s : string) : string :=
  match s with
  | EmptyString => EmptyString
  | String c s' =>
      String (if is_forbidden c then "_" else c) (replace_forbidden s')
  end.

(** The second substitution: every maximal run of white space becomes
    one space; [in_run] tells that the run has begun. *)
Fixpoint collapse_spaces (in_run : bool) (s : string) : string :=
  match s with
  | EmptyString => EmptyString
  | String c s' =>
      if is_space c
      then if in_run then collapse_spaces true s'
           else String " " (collapse_spaces true s')
      else String c (collapse_spaces false s')
  end.

Local Close Scope char_scope.

Definition _sanitize_filename (name : string) : string :=
  let name := replace_forbidden name in
  let name := strip (collapse_spaces false name) in
  if String.eqb name "" then "playlist" else name.

(** The file name [_write_csv] builds; [stamp] is
    [datetime.now().strftime("%Y%m%d_%H%M")]. *)
Definition csv_file_name (playlist_name stamp : string) : string :=
  ("playlist_" ++ _sanitize_filename playlist_name ++ "_" ++ stamp ++ ".csv")%string.

(** ** [_create_playlist_and_add] *)

(** A call to the Spotify client.  The description is a sequence of
    characters of any alphabet, cut by position. *)
Inductive api_call (Char : Type) :=
| user_playlist_create (user name : string) (description : list Char)
| playlist_add_items (playlist_id : string) (items : list string).

Arguments user_playlist_create {Char} user name description.
Arguments playlist_add_items {Char} playlist_id items.

(** [range(0, stop, step)] for a positive [step]. *)
Definition range_step (stop step : nat) : list nat :=
  map (fun k => (k * step)%nat) (seq 0 ((stop + (step - 1)) / step)).

(** The calls made, in order, and the address returned.  [playlist_id]
    and [spotify_url] are what the service answers to the creation:
    the entry ["id"], and the entry ["spotify"] of ["external_urls"]
    where both exist. *)
Definition _create_playlist_and_add {Char} (user_id name : string)
    (uris : list string) (description : list Char)
    (playlist_id : string) (spotify_url : option string)
  : list (api_call Char) * string :=
  (user_playlist_create user_id name (firstn 300 description)
   :: map (fun i => playlist_add_items playlist_id (firstn 100 (skipn i uris)))
          (range_step (List.length uris) 100),
   match spotify_url with Some url => url | None => "" end).

(** ** [create_playlist] with its loaders *)

Definition create_playlist_from_files {SV : SortValues} (fs : FileSystem)
    (artists_filter_file : option string) (source_dir : string)
    (year_start year_end : option Z) (top_artists tracks_per_artist : Z)
    (min_play_ms : Z) (min_track_total_ms : option Z)
    (artists_filter_mode : string)
  : list string * (io_exn + list RankedRow * list string) :=
  match _load_artist_patterns fs artists_filter_file with
  | inl e => ([], inl e)
  | inr patterns =>
      match _load_history fs source_dir with
      | inl e => (["[STEP 1/6]"], inl e)
      | inr df_raw =>
          let run := create_playlist patterns df_raw year_start year_end
                       top_artists tracks_per_artist min_play_ms
                       min_track_total_ms artists_filter_mode in
          (stdout run,
           match outcome run with
           | inl e => inl (Raised e)
           | inr result => inr result
           end)
      end
  end.

(** ** The command line: [cli.py] *)

Module cli.

(** The values found on the command line, each converted by the [type]
    of its option; [None] where the option is absent. *)
Record Argv := mkArgv {
  given_year_start : option Z;
  given_year_end : option Z;
  given_top_artists : option Z;
  given_tracks_per_artist : option Z;
  given_min_play_ms : option Z;
  given_min_track_total_ms : option Z;
  given_artists_filter_file : option string;
  given_artists_filter_mode : option string;
  given_source_dir : option string
}.

Record Namespace := mkNamespace {
  year_start : option Z;
  year_end : option Z;
  top_artists : Z;
  tracks_per_artist : Z;
  min_play_ms : Z;
  min_track_total_ms : option Z;
  artists_filter_file : option string;
  artists_filter_mode : string;
  source_dir : string
}.

Definition choices : list string := ["exclude"; "include"].

Definition or_default {A} (x : option A) (d : A) : A :=
  match x with Some v => v | None => d end.

(** [parse_args]: the defaults are filled in; a mode that is not among
    the [choices] makes the parser exit, here [None]. *)
Definition parse_args (argv : Argv) : option Namespace :=
  let mode := or_default (given_artists_filter_mode argv) "exclude" in
  if existsb (String.eqb mode) choices
  then Some (mkNamespace (given_year_start argv) (given_year_end argv)
               (or_default (given_top_artists argv) 30)
               (or_default (given_tracks_per_artist argv) 5)
               (or_default (given_min_play_ms argv) 30000)
               (given_min_track_total_ms argv)
               (given_artists_filter_file argv)
               mode
               (or_default (given_source_dir argv) "./source_data"))
  else None.

(** [str] of an integer. *)
Definition str (n : Z) : string := NilZero.string_of_int (Z.to_int n).

Definition _validate_years (start end_ : option Z) : exn + unit :=
  match start, end_ with
  | Some s, Some e =>
      if e <? s
      then inl (ValueError ("Invalid year range: year_start(" ++ str s
                            ++ ") must be <= year_end(" ++ str e ++ ")."))
      else inr tt
  | _, _ => inr tt
  end.

Definition _validate_non_negative (name : string) (value : option Z) : exn + unit :=
  match value with
  | Some v =>
      if v <? 0
      then inl (ValueError (name ++ " must be >= 0 (got " ++ str v ++ ")."))
      else inr tt
  | None => inr tt
  end.

(** How a run of [main] ends, as far as the engine decides it: the
    process exits with a status, after the message of the exception
    caught if there is one, or the result reaches the writers. *)
Inductive ending :=
| Exit (status : Z) (error : option io_exn)
| HandOver (result : list RankedRow * list string).

Definition main {SV : SortValues} (fs : FileSystem) (argv : Argv)
  : list string * ending :=
  match parse_args argv with
  | None => ([], Exit 2 None)
  | Some args =>
      match _validate_years (year_start args) (year_end args) with
      | inl e => ([], Exit 1 (Some (Raised e)))
      | inr _ =>
      match _validate_non_negative "min_play_ms" (Some (min_play_ms args)) with
      | inl e => ([], Exit 1 (Some (Raised e)))
      | inr _ =>
      match _validate_non_negative "min_track_total_ms" (min_track_total_ms args) with
      | inl e => ([], Exit 1 (Some (Raised e)))
      | inr _ =>
          let run := create_playlist_from_files fs (artists_filter_file args)
                       (source_dir args) (year_start args) (year_end args)
                       (top_artists args) (tracks_per_artist args)
                       (min_play_ms args) (min_track_total_ms args)
                       (artists_filter_mode args) in
          (fst run,
           match snd run with
           | inl e => Exit 1 (Some e)
           | inr result => HandOver result
           end)
      end end end
  end.

End cli.

(** ** Vocabulary for the loaders and the writers *)

Definition starts_with_space (s : string) : bool :=
  match s with
  | EmptyString => false
  | String c _ => is_space c
  end.

Fixpoint ends_with_space (s : string) : bool :=
  match s with
  | EmptyString => false
  | String c EmptyString => is_space c
  | String _ s' => ends_with_space s'
  end.

(** White space occurs in [s] only as single spaces, no two in a row;
    [in_run] tells that a space has just passed. *)
Fixpoint single_spaced (in_run : bool) (s : string) : bool :=
  match s with
  | EmptyString => true
  | String c s' =>
      if is_space c
      then Ascii.eqb c " " && negb in_run && single_spaced true s'
      else single_spaced false s'
  end.

(** The identifiers a call adds to the playlist. *)
Definition added_items {Char} (c : api_call Char) : list string :=
  match c with
  | playlist_add_items _ items => items
  | user_playlist_create _ _ _ => []
  end.

(** The file system [fs] with another directory listing. *)
Definition with_listdir (fs : FileSystem) (ls : string -> list string) : FileSystem :=
  mkFileSystem (read_lines fs) (isdir fs) ls (read_json fs).

Definition readable (fs : FileSystem) (source_dir f : string) : bool :=
  notna (read_json fs (path_join source_dir f)).

(** ** Sample files *)

Definition sample_fs : FileSystem :=
  mkFileSystem
    (fun p => if String.eqb p "filters.txt"
              then Some ["# live albums"; "  Live  "; ""; "beatles"]
              else if String.eqb p "copy.txt" then Some ["Live"; "beatles"]
              else None)
    (fun d => String.eqb d "data")
    (fun d => if String.eqb d "data"
              then ["b.json"; "notes.txt"; "A.JSON"; "broken.json"]
              else [])
    (fun p => if String.eqb p "data/A.JSON" then Some [event_of_2024]
              else if String.eqb p "data/b.json" then Some [event_without_timestamp]
              else None).

(** The listing of [sample_fs] in another order. *)
Definition other_listing (d : string) : list string :=
  if String.eqb d "data" then ["broken.json"; "A.JSON"; "b.json"; "notes.txt"] else [].

(** ** A sample history and sample command lines *)

Definition sample_history : list RawEvent :=
  [mkRaw (Some 2023) (Some 200000) (Some "T1") (Some "A") (Some "spotify:track:1")
         None None;
   mkRaw (Some 2024) (Some 100000) (Some "T2") (Some "B") (Some "spotify:track:2")
         None None;
   mkRaw (Some 2024) (Some 45000) None None None (Some "Episode 1") None;
   mkRaw (Some 2024) (Some 10000) (Some "T3") (Some "A") (Some "spotify:track:3")
         None None;
   mkRaw (Some 2024) (Some 50000) (Some "T1") (Some "A") (Some "spotify:track:1")
         None None].

(** [--source_dir data]. *)
Definition sample_options : cli.Argv :=
  cli.mkArgv None None None None None None None None (Some "data").


(* ================================================================== *)
(** * Properties *)

(** ** The key order is a strict total order *)

Lemma ascii_compare_refl (a : ascii) : Ascii.compare a a = Eq.
Proof. unfold Ascii.compare. apply N.compare_refl. Qed.

Lemma ascii_compare_trans (a b c : ascii) :
  Ascii.compare a b = Lt -> Ascii.compare b c = Lt -> Ascii.compare a c = Lt.
Proof.
  unfold Ascii.compare. rewrite !N.compare_lt_iff. apply N.lt_trans.
Qed.

Lemma string_compare_refl (s : string) : String.compare s s = Eq.
Proof.
  induction s as [|a s IH]; simpl; [reflexivity|].
  now rewrite ascii_compare_refl.
Qed.

Lemma string_compare_trans (a b c : string) :
  String.compare a b = Lt -> String.compare b c = Lt -> String.compare a c = Lt.
Proof.
  revert b c. induction a as [|x a IH]; intros [|y b] [|z c]; simpl;
    try discriminate; try reflexivity.
  destruct (Ascii.compare x y) eqn:Hxy; try discriminate;
    destruct (Ascii.compare y z) eqn:Hyz; try discriminate; intros Hab Hbc.
  - apply Ascii.compare_eq_iff in Hxy, Hyz. subst.
    rewrite ascii_compare_refl. eauto.
  - apply Ascii.compare_eq_iff in Hxy. subst. now rewrite Hyz.
  - apply Ascii.compare_eq_iff in Hyz. subst. now rewrite Hxy.
  - now rewrite (ascii_compare_trans _ _ _ Hxy Hyz).
Qed.

#[export] Instance string_order_laws : KeyOrderLaws string.
Proof.
  split; unfold kcmp, string_order.
  - intros a b; split; [apply String.compare_eq_iff|].
    intros ->. apply string_compare_refl.
  - intros a b. apply String.compare_antisym.
  - apply string_compare_trans.
Qed.

#[export] Instance option_order_laws {K} `{KeyOrderLaws K} : KeyOrderLaws (option K).
Proof.
  split.
  - intros [a|] [b|]; simpl; unfold kcmp, option_order;
      try (split; (discriminate || reflexivity)).
    fold (kcmp a b). rewrite kcmp_eq. split; congruence.
  - intros [a|] [b|]; unfold kcmp, option_order; try reflexivity.
    apply kcmp_antisym.
  - intros [a|] [b|] [c|]; unfold kcmp, option_order;
      try discriminate; try reflexivity.
    apply kcmp_trans.
Qed.

#[export] Instance pair_order_laws {K1 K2} `{KeyOrderLaws K1} `{KeyOrderLaws K2}
  : KeyOrderLaws (K1 * K2).
Proof.
  split.
  - intros [a1 a2] [b1 b2]. unfold kcmp, pair_order. simpl.
    destruct (kcmp a1 b1) eqn:E1.
    + apply kcmp_eq in E1. subst. fold (kcmp a2 b2). rewrite kcmp_eq.
      split; congruence.
    + split; [discriminate|]. intros [= -> _].
      assert (kcmp b1 b1 = Eq) by now apply kcmp_eq. congruence.
    + split; [discriminate|]. intros [= -> _].
      assert (kcmp b1 b1 = Eq) by now apply kcmp_eq. congruence.
  - intros [a1 a2] [b1 b2]. unfold kcmp, pair_order. simpl.
    fold (kcmp b1 a1) (kcmp a1 b1). rewrite (kcmp_antisym a1 b1).
    destruct (kcmp a1 b1); simpl; try reflexivity.
    apply kcmp_antisym.
  - intros [a1 a2] [b1 b2] [c1 c2]. unfold kcmp, pair_order. simpl.
    fold (kcmp a1 b1) (kcmp b1 c1) (kcmp a1 c1).
    destruct (kcmp a1 b1) eqn:E1; try discriminate;
      destruct (kcmp b1 c1) eqn:E2; try discriminate; intros Hab Hbc.
    + apply kcmp_eq in E1, E2. subst.
      assert (kcmp c1 c1 = Eq) as -> by now apply kcmp_eq.
      eapply kcmp_trans; eassumption.
    + apply kcmp_eq in E1. subst. now rewrite E2.
    + apply kcmp_eq in E2. subst. now rewrite E1.
    + now rewrite (kcmp_trans _ _ _ E1 E2).
Qed.

Lemma kcmp_refl {K} `{KeyOrderLaws K} (a : K) : kcmp a a = Eq.
Proof. now apply kcmp_eq. Qed.

Lemma kcmp_lt_irrefl {K} `{KeyOrderLaws K} (a : K) : kcmp a a <> Lt.
Proof. rewrite kcmp_refl. discriminate. Qed.

Lemma kcmp_gt_lt {K} `{KeyOrderLaws K} (a b : K) : kcmp a b = Gt <-> kcmp b a = Lt.
Proof.
  rewrite (kcmp_antisym a b). destruct (kcmp a b); simpl; split; congruence.
Qed.

(** ** Facts about the stable sort *)

Section StableSortFacts.
Context {A : Type} (le : A -> A -> bool).

Local Abbreviation leP := (fun x y : A => le x y = true).

Lemma insert_sorted_perm (x : A) (l : list A) :
  Permutation (insert_sorted le x l) (x :: l).
Proof.
  induction l as [|y l IH]; simpl; [reflexivity|].
  destruct (le x y); [reflexivity|].
  rewrite IH. apply perm_swap.
Qed.

Lemma stable_sort_perm (l : list A) : Permutation (stable_sort le l) l.
Proof.
  induction l as [|x l IH]; simpl; [reflexivity|].
  rewrite insert_sorted_perm. now constructor.
Qed.

Lemma stable_sort_In (l : list A) (x : A) : In x (stable_sort le l) <-> In x l.
Proof.
  split; apply Permutation_in;
    [apply stable_sort_perm | symmetry; apply stable_sort_perm].
Qed.

Lemma insert_sorted_front (x : A) (l : list A) :
  Forall (leP x) l -> insert_sorted le x l = x :: l.
Proof.
  destruct l as [|y l]; simpl; [reflexivity|].
  intros Hx. inversion Hx as [|? ? Hy _]; subst. now rewrite Hy.
Qed.

Hypothesis le_total : forall x y, le x y = true \/ le y x = true.
Hypothesis le_trans :
  forall x y z, le x y = true -> le y z = true -> le x z = true.

Lemma insert_sorted_sorted (x : A) (l : list A) :
  StronglySorted leP l -> StronglySorted leP (insert_sorted le x l).
Proof.
  induction 1 as [|y l Hs IH Hy]; simpl.
  - repeat constructor.
  - destruct (le x y) eqn:Hxy.
    + constructor; [now constructor|].
      constructor; [exact Hxy|].
      eapply Forall_impl; [|exact Hy]. intros z Hz. eapply le_trans; eassumption.
    + constructor; [exact IH|].
      eapply Permutation_Forall; [symmetry; apply insert_sorted_perm|].
      constructor; [|exact Hy].
      destruct (le_total x y) as [H|H]; [congruence|exact H].
Qed.

Lemma stable_sort_sorted (l : list A) : StronglySorted leP (stable_sort le l).
Proof.
  induction l as [|x l IH]; simpl; [constructor|].
  now apply insert_sorted_sorted.
Qed.

Lemma insert_sorted_filter (p : A -> bool) (x : A) (l : list A) :
  StronglySorted leP l ->
  filter p (insert_sorted le x l)
  = if p x then insert_sorted le x (filter p l) else filter p l.
Proof.
  induction 1 as [|y l Hs IH Hy]; simpl.
  - now destruct (p x).
  - destruct (le x y) eqn:Hxy; simpl.
    + destruct (p x) eqn:Hpx; [|reflexivity].
      symmetry. apply (insert_sorted_front x (filter p (y :: l))).
      apply Forall_forall. intros z Hz. apply filter_In in Hz as [Hz _].
      destruct Hz as [<-|Hz]; [exact Hxy|].
      rewrite Forall_forall in Hy. eapply le_trans; [exact Hxy|]. now apply Hy.
    + rewrite IH. destruct (p y) eqn:Hpy, (p x) eqn:Hpx; simpl;
        rewrite ?Hxy; reflexivity.
Qed.

(** Sorting and selecting rows commute. *)
Lemma stable_sort_filter (p : A -> bool) (l : list A) :
  filter p (stable_sort le l) = stable_sort le (filter p l).
Proof.
  induction l as [|x l IH]; simpl; [reflexivity|].
  rewrite insert_sorted_filter by apply stable_sort_sorted.
  rewrite IH. now destruct (p x).
Qed.

(** A frame that is already in order is left as it is. *)
Lemma stable_sort_id (l : list A) : StronglySorted leP l -> stable_sort le l = l.
Proof.
  induction 1 as [|x l Hs IH Hx]; simpl; [reflexivity|].
  rewrite IH. now apply insert_sorted_front.
Qed.

(** Stability: rows that tie pairwise keep their relative order. *)
Lemma stable_sort_stable (p : A -> bool) (l : list A) :
  (forall x y, In x l -> In y l -> p x = true -> p y = true -> le x y = true) ->
  filter p (stable_sort le l) = filter p l.
Proof.
  intros Htie. rewrite stable_sort_filter. apply stable_sort_id.
  assert (Hall : forall x y, In x (filter p l) -> In y (filter p l) -> leP x y).
  { intros x y Hx Hy. apply filter_In in Hx as [Hx Hpx], Hy as [Hy Hpy].
    now apply Htie. }
  revert Hall. generalize (filter p l) as m.
  induction m as [|x m IH]; intros Hall; constructor.
  - apply IH. intros; apply Hall; now right.
  - apply Forall_forall. intros y Hy. apply Hall; [now left|now right].
Qed.
End StableSortFacts.

(** ** Facts about [groupby(...).sum()] *)

Lemma sum_Z_app (l1 l2 : list Z) : sum_Z (l1 ++ l2) = sum_Z l1 + sum_Z l2.
Proof. induction l1 as [|x l1 IH]; simpl; lia. Qed.

Lemma sum_Z_perm (l1 l2 : list Z) : Permutation l1 l2 -> sum_Z l1 = sum_Z l2.
Proof. induction 1; simpl; lia. Qed.

Section GroupByFacts.
Context {R K : Type} `{KeyOrderLaws K} (key : R -> K) (val : R -> Z).

Lemma keqb_eq (a b : K) : keqb a b = true <-> a = b.
Proof.
  unfold keqb. rewrite <- kcmp_eq. destruct (kcmp a b); split; congruence.
Qed.

Lemma keqb_refl (a : K) : keqb a a = true.
Proof. now apply keqb_eq. Qed.

Lemma stored_group_add (k' k : K) (v : Z) (g : list (K * Z)) :
  stored k' (group_add k v g) = stored k' g + (if keqb k k' then v else 0).
Proof.
  unfold stored. induction g as [|[k0 s] g IH]; simpl.
  - destruct (keqb k k'); simpl; lia.
  - destruct (kcmp k k0) eqn:E; simpl.
    + apply kcmp_eq in E. subst k0. destruct (keqb k k'); simpl; lia.
    + destruct (keqb k k'), (keqb k0 k'); simpl; lia.
    + destruct (keqb k0 k'); simpl; rewrite IH; lia.
Qed.

Lemma keys_group_add (k' k : K) (v : Z) (g : list (K * Z)) :
  In k' (map fst (group_add k v g)) <-> k' = k \/ In k' (map fst g).
Proof.
  induction g as [|[k0 s] g IH]; simpl.
  - intuition.
  - destruct (kcmp k k0) eqn:E; simpl.
    + apply kcmp_eq in E. subst k0. intuition.
    + intuition.
    + rewrite IH. intuition.
Qed.

Lemma group_add_sorted (k : K) (v : Z) (g : list (K * Z)) :
  StronglySorted key_lt g -> StronglySorted key_lt (group_add k v g).
Proof.
  induction 1 as [|[k0 s] g Hs IH Hk]; simpl.
  - repeat constructor.
  - destruct (kcmp k k0) eqn:E.
    + constructor; [exact Hs|]. exact Hk.
    + constructor; [now constructor|].
      constructor; [exact E|].
      eapply Forall_impl; [|exact Hk]. intros e He.
      unfold key_lt in *. simpl in *. eapply kcmp_trans; eassumption.
    + constructor; [exact IH|].
      apply Forall_forall. intros [k1 s1] H1.
      assert (Hin : In k1 (map fst (group_add k v g)))
        by (apply in_map_iff; exists (k1, s1); auto).
      apply keys_group_add in Hin as [->|Hin].
      * unfold key_lt. simpl. now apply kcmp_gt_lt.
      * apply in_map_iff in Hin as [[k2 s2] [Hk2 Hin]]. simpl in Hk2. subst k2.
        rewrite Forall_forall in Hk. exact (Hk _ Hin).
Qed.

Lemma fold_group_sorted (df : list R) (g : list (K * Z)) :
  StronglySorted key_lt g -> StronglySorted key_lt (fold_left (group_step key val) df g).
Proof.
  revert g. induction df as [|r df IH]; simpl; intros g Hg; [exact Hg|].
  apply IH. now apply group_add_sorted.
Qed.

Lemma fold_group_stored (k : K) (df : list R) (g : list (K * Z)) :
  stored k (fold_left (group_step key val) df g) = stored k g + sum_where key val k df.
Proof.
  revert g. induction df as [|r df IH]; simpl; intros g.
  - unfold sum_where. simpl. lia.
  - rewrite IH. unfold group_step. rewrite stored_group_add.
    unfold sum_where. simpl. destruct (keqb (key r) k); simpl; lia.
Qed.

Lemma fold_group_keys (k : K) (df : list R) (g : list (K * Z)) :
  In k (map fst (fold_left (group_step key val) df g)) <-> In k (map fst g) \/ In k (map key df).
Proof.
  revert g. induction df as [|r df IH]; simpl; intros g.
  - intuition.
  - rewrite IH. unfold group_step. rewrite keys_group_add. intuition.
Qed.

Lemma filter_key_above (k : K) (s : Z) (g : list (K * Z)) :
  Forall (key_lt (k, s)) g -> filter (fun e => keqb (fst e) k) g = [].
Proof.
  induction 1 as [|e g He Hg IH]; simpl; [reflexivity|].
  destruct (keqb (fst e) k) eqn:E; [|exact IH].
  apply keqb_eq in E. unfold key_lt in He. simpl in He.
  rewrite E in He. now apply kcmp_lt_irrefl in He.
Qed.

Lemma sorted_stored (k : K) (s : Z) (g : list (K * Z)) :
  StronglySorted key_lt g -> In (k, s) g -> stored k g = s.
Proof.
  unfold stored. induction 1 as [|[k0 s0] g Hs IH Hk]; simpl; [tauto|].
  intros [[= -> ->]|Hin].
  - rewrite keqb_refl. simpl.
    rewrite (filter_key_above k s g Hk). simpl. lia.
  - destruct (keqb k0 k) eqn:E.
    + apply keqb_eq in E. subst k0.
      rewrite Forall_forall in Hk. specialize (Hk _ Hin).
      unfold key_lt in Hk. simpl in Hk. now apply kcmp_lt_irrefl in Hk.
    + now apply IH.
Qed.

Lemma sorted_nodup_keys (g : list (K * Z)) :
  StronglySorted key_lt g -> NoDup (map fst g).
Proof.
  induction 1 as [|e g Hs IH Hk]; simpl; constructor; [|exact IH].
  intros Hin. apply in_map_iff in Hin as [e' [He' Hin]].
  rewrite Forall_forall in Hk. specialize (Hk _ Hin).
  unfold key_lt in Hk. rewrite He' in Hk. now apply kcmp_lt_irrefl in Hk.
Qed.

(** A table sorted on its keys is determined by its entries. *)
Lemma sorted_unique (g1 g2 : list (K * Z)) :
  StronglySorted key_lt g1 -> StronglySorted key_lt g2 ->
  (forall e, In e g1 <-> In e g2) -> g1 = g2.
Proof.
  intros H1. revert g2.
  induction H1 as [|a g1 Hs1 IH Ha]; intros g2 H2 Hin.
  - destruct g2 as [|b g2]; [reflexivity|].
    exfalso. apply (proj2 (Hin b)). now left.
  - destruct H2 as [|b g2 Hs2 Hb].
    + exfalso. apply (proj1 (Hin a)). now left.
    + rewrite Forall_forall in Ha, Hb.
      assert (Hab : a = b).
      { destruct (proj1 (Hin a) (or_introl eq_refl)) as [E|Ea]; [now symmetry|].
        destruct (proj2 (Hin b) (or_introl eq_refl)) as [E|Eb]; [exact E|].
        specialize (Ha _ Eb). specialize (Hb _ Ea). unfold key_lt in *.
        exfalso. apply (kcmp_lt_irrefl (fst a)). eapply kcmp_trans; eassumption. }
      subst b. f_equal. apply IH; [exact Hs2|].
      intros e. split; intros He.
      * destruct (proj1 (Hin e) (or_intror He)) as [E|E]; [|exact E].
        subst e. specialize (Ha _ He). now apply kcmp_lt_irrefl in Ha.
      * destruct (proj2 (Hin e) (or_intror He)) as [E|E]; [|exact E].
        subst e. specialize (Hb _ He). now apply kcmp_lt_irrefl in Hb.
Qed.

Lemma groupby_sum_sorted (df : list R) :
  StronglySorted key_lt (groupby_sum key val df).
Proof. apply fold_group_sorted. constructor. Qed.

(** Aggregation: one entry per key that occurs, holding the sum of the
    values of the rows with that key. *)
Lemma groupby_sum_In (df : list R) (k : K) (s : Z) :
  In (k, s) (groupby_sum key val df)
  <-> In k (map key df) /\ s = sum_where key val k df.
Proof.
  unfold groupby_sum. split.
  - intros Hin. split.
    + apply (in_map fst) in Hin. simpl in Hin.
      apply fold_group_keys in Hin as [[]|Hin]. exact Hin.
    + pose proof (groupby_sum_sorted df) as Hs.
      rewrite <- (sorted_stored k s _ Hs Hin).
      unfold groupby_sum. rewrite fold_group_stored.
      unfold stored. simpl. lia.
  - intros [Hk ->].
    assert (Hin : In k (map fst (fold_left (group_step key val) df [])))
      by (apply fold_group_keys; now right).
    apply in_map_iff in Hin as [[k' s'] [Hk' Hin]]. simpl in Hk'. subst k'.
    pose proof (groupby_sum_sorted df) as Hs.
    unfold groupby_sum in Hs.
    pose proof (sorted_stored k s' _ Hs Hin) as Hst.
    rewrite fold_group_stored in Hst. unfold stored in Hst. simpl in Hst.
    replace (sum_where key val k df) with s' by lia. exact Hin.
Qed.

Lemma sum_where_perm (k : K) (df df' : list R) :
  Permutation df df' -> sum_where key val k df = sum_where key val k df'.
Proof.
  intros Hp. unfold sum_where. apply sum_Z_perm.
  apply Permutation_map. clear -Hp.
  induction Hp; simpl.
  - reflexivity.
  - destruct (keqb (key x) k); [now constructor|assumption].
  - destruct (keqb (key x) k), (keqb (key y) k);
      try reflexivity; apply perm_swap.
  - etransitivity; eassumption.
Qed.

(** The grouped table does not depend on the order of the rows. *)
Lemma groupby_sum_perm (df df' : list R) :
  Permutation df df' -> groupby_sum key val df = groupby_sum key val df'.
Proof.
  intros Hp. apply sorted_unique; try apply groupby_sum_sorted.
  intros [k s]. rewrite !groupby_sum_In.
  rewrite (sum_where_perm k df df' Hp).
  split; intros [Hk Hs]; split; try exact Hs.
  - eapply Permutation_in; [apply Permutation_map; exact Hp|exact Hk].
  - eapply Permutation_in; [apply Permutation_map; symmetry; exact Hp|exact Hk].
Qed.
End GroupByFacts.

(** ** Generic list facts *)

Lemma filter_comp {A} (f g : A -> bool) (l : list A) :
  filter f (filter g l) = filter (fun x => g x && f x) l.
Proof.
  induction l as [|x l IH]; simpl; [reflexivity|].
  destruct (g x); simpl; [destruct (f x)|]; now rewrite IH.
Qed.

Lemma filter_length_le {A} (f : A -> bool) (l : list A) :
  (List.length (filter f l) <= List.length l)%nat.
Proof. induction l as [|x l IH]; simpl; [lia|]. destruct (f x); simpl; lia. Qed.

Lemma filter_all {A} (f : A -> bool) (l : list A) :
  (forall x, In x l -> f x = true) -> filter f l = l.
Proof.
  induction l as [|x l IH]; simpl; intros Hf; [reflexivity|].
  rewrite (Hf x) by now left. f_equal. apply IH. intros; apply Hf; now right.
Qed.

Lemma filter_none {A} (f : A -> bool) (l : list A) :
  (forall x, In x l -> f x = false) -> filter f l = [].
Proof.
  induction l as [|x l IH]; simpl; intros Hf; [reflexivity|].
  rewrite (Hf x) by now left. apply IH. intros; apply Hf; now right.
Qed.

(* ================================================================== *)
(** ** The event filter *)

(** With year bounds other than 0 the filter keeps exactly the events
    that meet the conditions, in their order. *)
Lemma filter_music_events_nonzero_bounds (df : list RawEvent) (min_play_ms : Z)
    (year_start year_end : option Z) :
  year_start <> Some 0 -> year_end <> Some 0 ->
  filter_music_events df min_play_ms year_start year_end
  = filter (survives min_play_ms year_start year_end) df.
Proof.
  intros Hs He. unfold filter_music_events.
  assert (Ts : truthy year_start = notna year_start).
  { destruct year_start as [v|]; simpl; [|reflexivity].
    destruct (Z.eqb_spec v 0); [congruence|reflexivity]. }
  assert (Te : truthy year_end = notna year_end).
  { destruct year_end as [v|]; simpl; [|reflexivity].
    destruct (Z.eqb_spec v 0); [congruence|reflexivity]. }
  rewrite Ts, Te.
  destruct year_start as [ys|], year_end as [ye|]; simpl;
    rewrite !filter_comp; apply filter_ext; intros e;
    unfold survives, is_podcast_or_audiobook, notna, year_within;
    destruct (episode_name e), (audiobook_title e),
      (master_metadata_track_name e), (master_metadata_album_artist_name e),
      (ts e); simpl;
    try reflexivity;
    repeat match goal with
           | |- context [?a <=? ?b] => destruct (a <=? b); simpl
           end; reflexivity.
Qed.

(** The column selection loses no row of the selection. *)
Lemma select_columns_filtered (df : list RawEvent) (min_play_ms : Z)
    (year_start year_end : option Z) :
  List.length (_filter_music_rows df min_play_ms year_start year_end)
  = List.length (filter_music_events df min_play_ms year_start year_end).
Proof.
  unfold _filter_music_rows, filter_music_events.
  set (d0 := filter _ df).
  set (p := fun e => notna (master_metadata_track_name e)
                     && notna (master_metadata_album_artist_name e)).
  assert (Hall : forall l, Forall (fun e => p e = true) l ->
                           List.length (select_columns l) = List.length l).
  { induction 1 as [|e l He Hl IH]; simpl; [reflexivity|].
    unfold to_row. unfold p, notna in He.
    destruct (master_metadata_album_artist_name e),
      (master_metadata_track_name e); simpl in *; try discriminate.
    now rewrite IH. }
  assert (Hf : forall (q : RawEvent -> bool) l,
             Forall (fun e => p e = true) l ->
             Forall (fun e => p e = true) (filter q l)).
  { intros q l Hl. rewrite Forall_forall in *. intros e He.
    apply filter_In in He as [He _]. now apply Hl. }
  assert (H1 : Forall (fun e => p e = true) (filter p d0)).
  { apply Forall_forall. intros e He. now apply filter_In in He as [_ He]. }
  apply Hall.
  repeat match goal with
         | |- _ => exact H1
         | |- Forall _ (if ?b then _ else _) => destruct b
         | |- Forall _ (filter _ _) => apply Hf
         end.
Qed.

(** C4.  The claim: an event survives the event filter exactly when it
    is no podcast or audiobook, has an artist and a track, was played
    for at least [min_play_ms], and, when a year bound is set, has a
    timestamp whose year lies within the bounds, for all integer
    bounds.  At a bound of 0 the code departs from it: [year_start = 0]
    lets an event without timestamp through, and [year_end = 0] lets an
    event of 2024 through, because the filter tests the bounds for
    truthiness and 0 counts as unset. *)
Theorem C4_year_bound_zero_counts_as_unset :
  _filter_music_rows [event_without_timestamp] 30000 (Some 0) None
  = [mkRow None (Some 60000) "A" "T" (Some "spotify:track:1")]
  /\ survives 30000 (Some 0) None event_without_timestamp = false
  /\ _filter_music_rows [event_of_2024] 30000 None (Some 0)
     = [mkRow (Some 2024) (Some 60000) "A" "T" (Some "spotify:track:1")]
  /\ survives 30000 None (Some 0) event_of_2024 = false.
Proof. repeat split. Qed.

(* ================================================================== *)
(** ** The pattern filter *)

Lemma special_not_alnum (c : ascii) : is_special c = true -> is_alnum c = false.
Proof. destruct c as [[] [] [] [] [] [] [] []]; vm_compute; congruence. Qed.

Lemma plain_not_meta (c : ascii) :
  is_special c = false ->
  Ascii.eqb c "\" = false /\ Ascii.eqb c "|" = false /\ is_meta c = false.
Proof.
  destruct c as [[] [] [] [] [] [] [] []]; vm_compute; intros H;
    repeat split; congruence.
Qed.

Lemma re_compile_escaped (d : ascii) (s : string) :
  re_compile (String "\" (String d s))
  = if is_alnum d then None else option_map (push_char d) (re_compile s).
Proof. reflexivity. Qed.

Lemma re_compile_bar (s : string) :
  re_compile (String "|" s) = option_map (cons EmptyString) (re_compile s).
Proof. reflexivity. Qed.

Lemma re_compile_plain (c : ascii) (s : string) :
  is_special c = false ->
  re_compile (String c s) = option_map (push_char c) (re_compile s).
Proof.
  intros H. apply plain_not_meta in H as (H1 & H2 & H3).
  simpl. now rewrite H1, H2, H3.
Qed.

Lemma append_empty_r (s : string) : (s ++ "")%string = s.
Proof. induction s as [|c s IH]; simpl; [reflexivity|now rewrite IH]. Qed.

(** An escaped pattern in front of a regular expression adds the
    pattern, as it is, in front of the first alternative. *)
Lemma re_compile_escape (p s a : string) (rest : list string) :
  re_compile s = Some (a :: rest) ->
  re_compile (re_escape p ++ s)%string = Some ((p ++ a)%string :: rest).
Proof.
  intros Hs. induction p as [|c p IH]; simpl; [exact Hs|].
  destruct (is_special c) eqn:Hc.
  - change (re_compile (String "\" (String c (re_escape p ++ s)%string))
            = Some (String c (p ++ a)%string :: rest)).
    rewrite re_compile_escaped, (special_not_alnum c Hc), IH. reflexivity.
  - change (re_compile (String c (re_escape p ++ s)%string)
            = Some (String c (p ++ a)%string :: rest)).
    rewrite (re_compile_plain c _ Hc), IH. reflexivity.
Qed.

(** Escaping makes every pattern a literal: the compiled expression is
    the list of the patterns themselves. *)
Lemma re_compile_join (p : string) (ps : list string) :
  re_compile (String.concat "|" (map re_escape (p :: ps))) = Some (p :: ps).
Proof.
  revert p. induction ps as [|q ps IH]; intros p.
  - simpl. rewrite <- (append_empty_r (re_escape p)).
    rewrite (re_compile_escape p "" "" []) by reflexivity.
    now rewrite append_empty_r.
  - change (re_compile (re_escape p
                        ++ String "|" (String.concat "|" (map re_escape (q :: ps))))%string
            = Some (p :: q :: ps)).
    rewrite (re_compile_escape p _ "" (q :: ps)).
    + now rewrite append_empty_r.
    + rewrite re_compile_bar, IH. reflexivity.
Qed.




Lemma loc_mask (f : Row -> bool) (df : list Row) :
  loc df (map f df) = filter f df.
Proof.
  induction df as [|r df IH]; simpl; [reflexivity|].
  rewrite IH. reflexivity.
Qed.

Lemma apply_artist_patterns_compiled (df : list Row) (patterns : list string)
    (mode : string) :
  patterns <> [] ->
  _apply_artist_patterns df patterns mode
  = if String.eqb mode "include"
    then ret (filter (fun r => str_contains patterns (artist r)) df)
    else if String.eqb mode "exclude"
         then ret (filter (fun r => negb (str_contains patterns (artist r))) df)
         else raise mode_error.
Proof.
  destruct patterns as [|p ps]; [congruence|]. intros _.
  unfold _apply_artist_patterns. rewrite re_compile_join.
  rewrite map_map, !loc_mask. reflexivity.
Qed.



(* ================================================================== *)
(** ** The mode of the pattern filter in the pipeline *)

(** C3, as amended.  A mode other than the two recognised ones makes
    the pattern filter raise the configuration error, for every frame,
    when the pattern list is not empty; no default mode is substituted.
    In the pipeline the error comes after the events were read and
    passed through the event filter and before the aggregation; if no
    event passed the event filter, the "no valid music rows" error comes
    instead.  With an empty pattern list the mode is not looked at. *)
Theorem C3_invalid_mode {SV : SortValues} (patterns : list string)
    (df_raw : list RawEvent) (year_start year_end : option Z)
    (top_artists tracks_per_artist min_play_ms : Z)
    (min_track_total_ms : option Z) (mode : string)
    (Hin : mode <> "include") (Hex : mode <> "exclude") :
  (patterns <> [] ->
   forall df, _apply_artist_patterns df patterns mode = raise mode_error)
  /\ (patterns <> [] ->
      _filter_music_rows df_raw min_play_ms year_start year_end <> [] ->
      create_playlist patterns df_raw year_start year_end top_artists
        tracks_per_artist min_play_ms min_track_total_ms mode
      = (["[STEP 1/6]"; "[STEP 2/6]"], inl mode_error))
  /\ (_filter_music_rows df_raw min_play_ms year_start year_end = [] ->
      create_playlist patterns df_raw year_start year_end top_artists
        tracks_per_artist min_play_ms min_track_total_ms mode
      = (["[STEP 1/6]"; "[STEP 2/6]"],
         inl (RuntimeError "No valid music rows after filtering.")))
  /\ create_playlist [] df_raw year_start year_end top_artists
       tracks_per_artist min_play_ms min_track_total_ms mode
     = create_playlist [] df_raw year_start year_end top_artists
         tracks_per_artist min_play_ms min_track_total_ms "exclude".
Proof.
  apply String.eqb_neq in Hin, Hex.
  assert (Hraise : patterns <> [] -> forall df,
             _apply_artist_patterns df patterns mode = raise mode_error).
  { intros Hne df. rewrite apply_artist_patterns_compiled by exact Hne.
    now rewrite Hin, Hex. }
  repeat split.
  - exact Hraise.
  - intros Hne Hrows. unfold create_playlist.
    destruct (_filter_music_rows df_raw min_play_ms year_start year_end)
      as [|r rows] eqn:E; [congruence|].
    destruct patterns as [|p ps]; [congruence|].
    rewrite (Hraise Hne). reflexivity.
  - intros Hrows. unfold create_playlist. rewrite Hrows. reflexivity.
Qed.

Lemma C3_invalid_mode_witness :
  create_playlist (SV := stable_sort_values) ["beatles"] [event_of_2024]
    None None 1 1 30000 None "shuffle"
  = (["[STEP 1/6]"; "[STEP 2/6]"], inl mode_error).
Proof.
  refine (proj1 (proj2 (C3_invalid_mode (SV := stable_sort_values) ["beatles"]
            [event_of_2024] None None 1 1 30000 None "shuffle" _ _)) _ _);
    discriminate.
Defined.

(** The claim as it was stated fails: with an empty pattern list an
    unknown mode raises nothing and the pipeline delivers a playlist. *)
Lemma C3_counterexample :
  ~ (exists e,
        outcome (create_playlist (SV := stable_sort_values) [] [event_of_2024]
                   None None 1 1 30000 None "shuffle") = inl e).
Proof. intros [e H]. vm_compute in H. discriminate. Qed.

(* ================================================================== *)
(** ** De-duplication of the identifiers *)

Lemma precedes_head {A} (x y : A) (l : list A) : precedes x y (x :: l).
Proof. exists [], l. simpl. tauto. Qed.

Lemma precedes_head_other {A} (x y : A) (l : list A) :
  x <> y -> ~ precedes x y (y :: l).
Proof.
  intros Hxy (l1 & l2 & E & Hx & Hy). destruct l1 as [|z l1]; simpl in E.
  - injection E as E _. congruence.
  - injection E as E _. subst z. apply Hy. now left.
Qed.

Lemma precedes_cons {A} (x y z : A) (l : list A) :
  z <> x -> z <> y -> precedes x y (z :: l) <-> precedes x y l.
Proof.
  intros Hx Hy. split.
  - intros (l1 & l2 & E & H1 & H2). destruct l1 as [|w l1]; simpl in E.
    + injection E as E _. congruence.
    + injection E as -> ->. exists l1, l2. simpl in *. tauto.
  - intros (l1 & l2 & -> & H1 & H2). exists (z :: l1), l2. simpl.
    intuition congruence.
Qed.

Lemma dedup_walk_acc (col : list (option string)) (seen : set string)
    (acc : list string) :
  dedup_walk col seen acc = acc ++ dedup_walk col seen [].
Proof.
  revert seen acc. induction col as [|[u|] col IH]; intros seen acc; simpl.
  - now rewrite app_nil_r.
  - destruct (set_mem string_dec u seen); [apply IH|].
    rewrite (IH _ (acc ++ [u])), (IH _ [u]). now rewrite <- app_assoc.
  - apply IH.
Qed.

Lemma dedup_walk_some (u : string) (col : list (option string)) (seen : set string) :
  dedup_walk (Some u :: col) seen []
  = if set_mem string_dec u seen then dedup_walk col seen []
    else u :: dedup_walk col (set_add string_dec u seen) [].
Proof.
  simpl. destruct (set_mem string_dec u seen); [reflexivity|].
  now rewrite dedup_walk_acc.
Qed.

Lemma set_mem_false (u : string) (seen : set string) :
  set_mem string_dec u seen = false <-> ~ In u seen.
Proof.
  split.
  - apply set_mem_complete1.
  - apply set_mem_complete2.
Qed.

Lemma set_mem_true (u : string) (seen : set string) :
  set_mem string_dec u seen = true <-> In u seen.
Proof.
  split.
  - apply set_mem_correct1.
  - apply set_mem_correct2.
Qed.

Lemma dedup_walk_In (col : list (option string)) (seen : set string) (x : string) :
  In x (dedup_walk col seen []) <-> In (Some x) col /\ ~ In x seen.
Proof.
  revert seen. induction col as [|[u|] col IH]; intros seen.
  - simpl. tauto.
  - rewrite dedup_walk_some. destruct (set_mem string_dec u seen) eqn:E.
    + apply set_mem_true in E. rewrite IH. simpl. split.
      * tauto.
      * intros [[[= ->]|H] Hs]; tauto.
    + apply set_mem_false in E. simpl. rewrite IH, set_add_iff. split.
      * intros [->|[H Hs]]; [tauto|]. split; [tauto|]. intros Hx. apply Hs. now right.
      * intros [[[= ->]|H] Hs]; [now left|].
        destruct (string_dec u x) as [->|Hne]; [now left|]. right.
        split; [exact H|]. intros [Hx|Hx]; congruence.
  - simpl. rewrite IH. split.
    + tauto.
    + intros [[H|H] Hs]; [discriminate|tauto].
Qed.

Lemma dedup_walk_NoDup (col : list (option string)) (seen : set string) :
  NoDup (dedup_walk col seen []).
Proof.
  revert seen. induction col as [|[u|] col IH]; intros seen.
  - constructor.
  - rewrite dedup_walk_some. destruct (set_mem string_dec u seen); [apply IH|].
    constructor; [|apply IH].
    rewrite dedup_walk_In, set_add_iff. tauto.
  - apply IH.
Qed.

Lemma dedup_walk_order (col : list (option string)) (seen : set string)
    (x y : string) :
  x <> y ->
  In x (dedup_walk col seen []) -> In y (dedup_walk col seen []) ->
  precedes x y (dedup_walk col seen []) <-> precedes (Some x) (Some y) col.
Proof.
  intros Hxy. revert seen. induction col as [|[u|] col IH]; intros seen.
  - simpl. tauto.
  - rewrite dedup_walk_some. destruct (set_mem string_dec u seen) eqn:E.
    + apply set_mem_true in E. intros Hx Hy.
      pose proof (proj1 (dedup_walk_In _ _ _) Hx) as [_ Hxs].
      pose proof (proj1 (dedup_walk_In _ _ _) Hy) as [_ Hys].
      rewrite precedes_cons by congruence. now apply IH.
    + intros Hx Hy. destruct (string_dec u x) as [->|Hux].
      * split; intros _; apply precedes_head.
      * destruct (string_dec u y) as [->|Huy].
        -- split; intros H; exfalso; revert H; apply precedes_head_other; congruence.
        -- rewrite !precedes_cons by congruence.
           destruct Hx as [Hx|Hx]; [congruence|].
           destruct Hy as [Hy|Hy]; [congruence|]. now apply IH.
  - simpl. intros Hx Hy. rewrite precedes_cons by discriminate. now apply IH.
Qed.


(** C7.  The identifier sequence holds every non-null identifier of
    the final table exactly once and nothing else, and two identifiers
    stand in it in the order of their first occurrences in the table;
    the text of the rows plays no part. *)
Theorem C7_dedup_first_occurrence {SV : SortValues} (df : list Row)
    (top_artists tracks_per_artist : Z) (min_track_total_ms : option Z) :
  let result := _aggregate_and_order df top_artists tracks_per_artist
                                     min_track_total_ms in
  let column := map row_uri (fst result) in
  let uris := snd result in
  NoDup uris
  /\ (forall x, In x uris <-> In (Some x) column)
  /\ (forall x y, In x uris -> In y uris -> x <> y ->
                  (precedes x y uris <-> precedes (Some x) (Some y) column)).
Proof.
  simpl. unfold dedup_uris. repeat split.
  - apply dedup_walk_NoDup.
  - intros H. now apply dedup_walk_In in H.
  - intros H. apply dedup_walk_In. split; [exact H|]. intros [].
  - now apply dedup_walk_order.
  - now apply dedup_walk_order.
Qed.

(* ================================================================== *)
(** ** The final order of the table *)

Lemma by_artist_ms_rank_total (a b : RankedRow) :
  by_artist_ms_rank a b = true \/ by_artist_ms_rank b a = true.
Proof.
  unfold by_artist_ms_rank.
  destruct (Z.lt_total (artist_ms (merged a)) (artist_ms (merged b))) as [H|[H|H]].
  - right. apply orb_true_iff. left. now apply Z.ltb_lt.
  - destruct (Z.le_ge_cases (rank_in_artist a) (rank_in_artist b)).
    + left. apply orb_true_iff. right. apply andb_true_iff.
      split; [now apply Z.eqb_eq|now apply Z.leb_le].
    + right. apply orb_true_iff. right. apply andb_true_iff.
      split; [now apply Z.eqb_eq|now apply Z.leb_le].
  - left. apply orb_true_iff. left. now apply Z.ltb_lt.
Qed.

Lemma by_artist_ms_rank_trans (a b c : RankedRow) :
  by_artist_ms_rank a b = true -> by_artist_ms_rank b c = true ->
  by_artist_ms_rank a c = true.
Proof.
  unfold by_artist_ms_rank. intros H1 H2. bool_to_Z; apply orb_true_iff;
    first [ left; apply Z.ltb_lt; lia
          | right; apply andb_true_iff; split;
            [apply Z.eqb_eq|apply Z.leb_le]; lia ].
Qed.

Lemma StronglySorted_impl {A} (P Q : A -> A -> Prop) (l : list A) :
  (forall x y, P x y -> Q x y) -> StronglySorted P l -> StronglySorted Q l.
Proof.
  intros HPQ. induction 1 as [|x l Hs IH Hx]; constructor; [exact IH|].
  eapply Forall_impl; [|exact Hx]. intros y. apply HPQ.
Qed.

(** C8.  The final table is the frame of the ranked rows that passed
    the per-artist cut, rearranged: in descending order of [artist_ms]
    and, within one [artist_ms], ascending order of [rank_in_artist];
    rows with the same pair of keys stand in the order they had before
    the sort. *)
Theorem C8_final_table_order {SV : SortValues} (df : list Row)
    (top_artists tracks_per_artist : Z) (min_track_total_ms : option Z) :
  let table := fst (_aggregate_and_order df top_artists tracks_per_artist
                                         min_track_total_ms) in
  let before := filter (fun r => rank_in_artist r <=? tracks_per_artist)
                       (track_totals_ranked df top_artists min_track_total_ms) in
  StronglySorted final_order table
  /\ Permutation table before
  /\ (forall k1 k2, filter (has_sort_key k1 k2) table
                    = filter (has_sort_key k1 k2) before).
Proof.
  simpl. unfold ordered. repeat split.
  - eapply StronglySorted_impl;
      [|apply stable_sort_sorted;
        [apply by_artist_ms_rank_total|apply by_artist_ms_rank_trans]].
    intros x y H. unfold by_artist_ms_rank in H. unfold final_order.
    bool_to_Z; lia.
  - apply stable_sort_perm.
  - intros k1 k2. apply stable_sort_stable;
      [apply by_artist_ms_rank_total|apply by_artist_ms_rank_trans|].
    intros x y _ _ Hx Hy. unfold has_sort_key in Hx, Hy.
    unfold by_artist_ms_rank. bool_to_Z. apply orb_true_iff. right.
    apply andb_true_iff. split; [apply Z.eqb_eq|apply Z.leb_le]; lia.
Qed.

(* ================================================================== *)
(** ** Sorted lists *)

Lemma StronglySorted_map {A B} (f : A -> B) (R : B -> B -> Prop) (l : list A) :
  StronglySorted (fun x y => R (f x) (f y)) l -> StronglySorted R (map f l).
Proof.
  induction 1 as [|x l Hs IH Hx]; simpl; constructor; [exact IH|].
  apply Forall_map. exact Hx.
Qed.

Lemma StronglySorted_filter {A} (R : A -> A -> Prop) (p : A -> bool) (l : list A) :
  StronglySorted R l -> StronglySorted R (filter p l).
Proof.
  induction 1 as [|x l Hs IH Hx]; simpl; [constructor|].
  destruct (p x); [|exact IH]. constructor; [exact IH|].
  rewrite Forall_forall in *. intros y Hy. apply filter_In in Hy as [Hy _]. auto.
Qed.

Lemma StronglySorted_before {A} (R : A -> A -> Prop) (l1 l2 l3 : list A) (a b : A) :
  StronglySorted R (l1 ++ a :: l2 ++ b :: l3) -> R a b.
Proof.
  induction l1 as [|x l1 IH]; simpl; intros H; inversion H as [|? ? Hs Hx]; subst.
  - rewrite Forall_forall in Hx. apply Hx. apply in_or_app. right. now left.
  - now apply IH.
Qed.

Lemma StronglySorted_NoDup {A} (R : A -> A -> Prop) (l : list A) :
  (forall x, ~ R x x) -> StronglySorted R l -> NoDup l.
Proof.
  intros Hirr. induction 1 as [|x l Hs IH Hx]; constructor; [|exact IH].
  intros Hin. rewrite Forall_forall in Hx. exact (Hirr x (Hx x Hin)).
Qed.

(* ================================================================== *)
(** ** The artist selector *)



Lemma artist_totals_grouped_NoDup (df : list Row) :
  NoDup (map at_artist (artist_totals_grouped df)).
Proof.
  unfold artist_totals_grouped. rewrite map_map. simpl.
  exact (sorted_nodup_keys (groupby_sum artist ms_value df)
           (groupby_sum_sorted artist ms_value df)).
Qed.

#[export] Instance stable_sort_values_spec : SortValuesSpec stable_sort_values.
Proof.
  assert (Htot : forall x y, ms_desc_b x y = true \/ ms_desc_b y x = true).
  { intros x y. unfold ms_desc_b. rewrite !Z.leb_le. lia. }
  assert (Htr : forall x y z, ms_desc_b x y = true -> ms_desc_b y z = true ->
                              ms_desc_b x z = true).
  { intros x y z. unfold ms_desc_b. rewrite !Z.leb_le. lia. }
  split; intros l; unfold sort_values_desc, stable_sort_values.
  - apply stable_sort_perm.
  - eapply StronglySorted_impl; [|apply stable_sort_sorted; assumption].
    intros x y H. unfold ms_desc. now apply Z.leb_le.
Qed.


Section ArtistSelector.
Context {SV : SortValues} {SVS : SortValuesSpec SV}.


Lemma artist_totals_NoDup (df : list Row) :
  NoDup (map at_artist (artist_totals df)).
Proof.
  eapply Permutation_NoDup; [|apply artist_totals_grouped_NoDup].
  apply Permutation_map. symmetry. apply sort_values_perm.
Qed.

End ArtistSelector.




(** No sort at all can make the order of tied artists follow the
    input: the two inputs below yield the same table of sums, hence the
    same order, and their orders of first appearance are opposite. *)
Remark tie_order_cannot_follow_input {SV : SortValues} {SVS : SortValuesSpec SV} :
  ~ (ties_by_first_appearance b_then_a (artist_totals b_then_a)
     /\ ties_by_first_appearance a_then_b (artist_totals a_then_b)).
Proof.
  intros [H1 H2].
  assert (E : artist_totals a_then_b = artist_totals b_then_a) by reflexivity.
  rewrite E in H2.
  pose proof (sort_values_perm (artist_totals_grouped b_then_a)) as Hp.
  change (sort_values_desc (artist_totals_grouped b_then_a))
    with (artist_totals b_then_a) in Hp.
  change (artist_totals_grouped b_then_a)
    with [mkArtistTotal "A" 40000; mkArtistTotal "B" 40000] in Hp.
  pose proof (Permutation_length Hp) as Hlen.
  destruct (artist_totals b_then_a) as [|x [|y [|z l]]]; try discriminate.
  destruct (H1 [] x [] y [] eq_refl) as (i1 & j1 & Hi1 & Hj1 & Hlt1).
  { assert (Hx : In x [mkArtistTotal "A" 40000; mkArtistTotal "B" 40000])
      by (eapply Permutation_in; [exact Hp|now left]).
    assert (Hy : In y [mkArtistTotal "A" 40000; mkArtistTotal "B" 40000])
      by (eapply Permutation_in; [exact Hp|right; now left]).
    simpl in Hx, Hy. destruct Hx as [<-|[<-|[]]], Hy as [<-|[<-|[]]]; reflexivity. }
  destruct (H2 [] x [] y [] eq_refl) as (i2 & j2 & Hi2 & Hj2 & Hlt2).
  { assert (Hx : In x [mkArtistTotal "A" 40000; mkArtistTotal "B" 40000])
      by (eapply Permutation_in; [exact Hp|now left]).
    assert (Hy : In y [mkArtistTotal "A" 40000; mkArtistTotal "B" 40000])
      by (eapply Permutation_in; [exact Hp|right; now left]).
    simpl in Hx, Hy. destruct Hx as [<-|[<-|[]]], Hy as [<-|[<-|[]]]; reflexivity. }
  assert (Hx : In x [mkArtistTotal "A" 40000; mkArtistTotal "B" 40000])
    by (eapply Permutation_in; [exact Hp|now left]).
  assert (Hy : In y [mkArtistTotal "A" 40000; mkArtistTotal "B" 40000])
    by (eapply Permutation_in; [exact Hp|right; now left]).
  simpl in Hx, Hy.
  destruct Hx as [<-|[<-|[]]], Hy as [<-|[<-|[]]];
    vm_compute in Hi1, Hj1, Hi2, Hj2;
    injection Hi1 as <-; injection Hj1 as <-;
    injection Hi2 as <-; injection Hj2 as <-; lia.
Qed.

(* ================================================================== *)
(** ** Track totals and the merge *)

Lemma track_totals_sorted_keys (df : list Row) :
  StronglySorted key_before (track_totals df).
Proof.
  apply StronglySorted_map.
  eapply StronglySorted_impl; [|exact (groupby_sum_sorted track_key ms_value df)].
  intros [[[a1 t1] u1] s1] [[[a2 t2] u2] s2] H. exact H.
Qed.

Lemma track_totals_In (df : list Row) (t : TrackTotal) :
  In t (track_totals df)
  <-> In (tt_key t) (map track_key df)
      /\ track_ms t = track_total_ms (tt_key t) df.
Proof.
  unfold track_totals, track_total_ms.
  rewrite <- groupby_sum_In, in_map_iff. split.
  - intros ([[[a1 t1] u1] s1] & <- & H). exact H.
  - intros H. destruct t as [a1 t1 u1 s1]. now exists (a1, t1, u1, s1).
Qed.

Lemma key_before_irrefl (t : TrackTotal) : ~ key_before t t.
Proof. unfold key_before. apply kcmp_lt_irrefl. Qed.

Lemma key_before_trans (t1 t2 t3 : TrackTotal) :
  key_before t1 t2 -> key_before t2 t3 -> key_before t1 t3.
Proof. unfold key_before. apply kcmp_trans. Qed.

Lemma track_totals_NoDup (df : list Row) : NoDup (track_totals df).
Proof.
  eapply StronglySorted_NoDup; [apply key_before_irrefl|].
  apply track_totals_sorted_keys.
Qed.


Lemma NoDup_map_eq {A B} (f : A -> B) (l : list A) (a b : A) :
  NoDup (map f l) -> In a l -> In b l -> f a = f b -> a = b.
Proof.
  induction l as [|x l IH]; simpl; [tauto|].
  intros Hnd. inversion Hnd as [|? ? Hx Hl]; subst.
  intros [->|Ha] [->|Hb] E; auto.
  - exfalso. apply Hx. rewrite E. now apply in_map.
  - exfalso. apply Hx. rewrite <- E. now apply in_map.
Qed.

Lemma top_lookup_none (top : list ArtistTotal) (x : string) :
  in_top top x = false ->
  filter (fun a => String.eqb (at_artist a) x) top = [].
Proof.
  intros E. apply filter_none. intros a Ha.
  destruct (String.eqb (at_artist a) x) eqn:Ea; [|reflexivity].
  assert (in_top top x = true); [|congruence].
  unfold in_top. apply existsb_exists. now exists a.
Qed.

Lemma top_lookup_one (top : list ArtistTotal) (x : string) :
  NoDup (map at_artist top) -> in_top top x = true ->
  exists a, filter (fun a => String.eqb (at_artist a) x) top = [a].
Proof.
  induction top as [|a top IH]; simpl; [discriminate|].
  intros Hnd. inversion Hnd as [|? ? Ha Hl]; subst.
  destruct (String.eqb (at_artist a) x) eqn:E; simpl.
  - intros _. exists a. f_equal. apply filter_none. intros b Hb.
    destruct (String.eqb (at_artist b) x) eqn:Eb; [|reflexivity].
    apply String.eqb_eq in E, Eb. exfalso. apply Ha. rewrite E, <- Eb.
    now apply in_map.
  - intros H. now apply IH.
Qed.

Lemma merge_inner_totals (left : list TrackTotal) (top : list ArtistTotal) :
  NoDup (map at_artist top) ->
  map totals (merge_inner left top)
  = filter (fun t => in_top top (tt_artist t)) left.
Proof.
  intros Hnd. unfold merge_inner.
  induction left as [|t left IH]; simpl; [reflexivity|].
  rewrite map_app, IH, map_map. simpl.
  destruct (in_top top (tt_artist t)) eqn:E.
  - destruct (top_lookup_one top (tt_artist t) Hnd E) as [a ->]. reflexivity.
  - rewrite top_lookup_none by exact E. reflexivity.
Qed.

Lemma merge_inner_In (left : list TrackTotal) (top : list ArtistTotal)
    (r : MergedRow) :
  In r (merge_inner left top)
  <-> In (totals r) left
      /\ In (mkArtistTotal (tt_artist (totals r)) (artist_ms r)) top.
Proof.
  unfold merge_inner. rewrite in_flat_map. split.
  - intros (t & Ht & Hr). apply in_map_iff in Hr as (a & <- & Ha).
    apply filter_In in Ha as [Ha E]. apply String.eqb_eq in E. simpl.
    split; [exact Ht|]. rewrite <- E. now destruct a.
  - intros [Ht Ha]. exists (totals r). split; [exact Ht|].
    apply in_map_iff. exists (mkArtistTotal (tt_artist (totals r)) (artist_ms r)).
    split; [now destruct r|]. apply filter_In. split; [exact Ha|].
    simpl. apply String.eqb_refl.
Qed.

Lemma merge_inner_one_artist_ms (left : list TrackTotal) (top : list ArtistTotal) :
  NoDup (map at_artist top) -> one_artist_ms (merge_inner left top).
Proof.
  intros Hnd r1 r2 H1 H2 E. apply String.eqb_eq in E.
  apply merge_inner_In in H1 as [_ H1], H2 as [_ H2].
  assert (Heq : mkArtistTotal (tt_artist (totals r1)) (artist_ms r1)
                = mkArtistTotal (tt_artist (totals r2)) (artist_ms r2)).
  { apply (NoDup_map_eq at_artist top); auto. }
  now injection Heq.
Qed.

Lemma by_artist_ms_track_ms_total (a b : MergedRow) :
  by_artist_ms_track_ms a b = true \/ by_artist_ms_track_ms b a = true.
Proof.
  unfold by_artist_ms_track_ms.
  destruct (Z.lt_total (artist_ms a) (artist_ms b)) as [H|[H|H]].
  - right. apply orb_true_iff. left. now apply Z.ltb_lt.
  - destruct (Z.le_ge_cases (track_ms (totals a)) (track_ms (totals b))).
    + right. apply orb_true_iff. right. apply andb_true_iff.
      split; [now apply Z.eqb_eq|now apply Z.leb_le].
    + left. apply orb_true_iff. right. apply andb_true_iff.
      split; [now apply Z.eqb_eq|now apply Z.leb_le].
  - left. apply orb_true_iff. left. now apply Z.ltb_lt.
Qed.

Lemma by_artist_ms_track_ms_trans (a b c : MergedRow) :
  by_artist_ms_track_ms a b = true -> by_artist_ms_track_ms b c = true ->
  by_artist_ms_track_ms a c = true.
Proof.
  unfold by_artist_ms_track_ms. intros H1 H2. bool_to_Z; apply orb_true_iff;
    first [ left; apply Z.ltb_lt; lia
          | right; apply andb_true_iff; split;
            [apply Z.eqb_eq|apply Z.leb_le]; lia ].
Qed.

Lemma sorted_frame_sorted (l : list MergedRow) :
  StronglySorted (fun x y => by_artist_ms_track_ms x y = true)
                 (stable_sort by_artist_ms_track_ms l).
Proof.
  apply stable_sort_sorted;
    [apply by_artist_ms_track_ms_total|apply by_artist_ms_track_ms_trans].
Qed.

Lemma same_artist_refl (r : MergedRow) : same_artist r r = true.
Proof. apply String.eqb_refl. Qed.

Lemma same_artist_sym (a b : MergedRow) : same_artist a b = same_artist b a.
Proof. apply String.eqb_sym. Qed.

Lemma same_artist_trans (a b c : MergedRow) :
  same_artist a b = true -> same_artist b c = true -> same_artist a c = true.
Proof. unfold same_artist. rewrite !String.eqb_eq. congruence. Qed.

(* ================================================================== *)
(** ** Ranks *)

Lemma rank_first_desc_merged (before after : list MergedRow) :
  map merged (rank_first_desc before after) = after.
Proof.
  revert before. induction after as [|r after IH]; intros before; simpl;
    [reflexivity|]. now rewrite IH.
Qed.

Lemma StronglySorted_split {A} (R : A -> A -> Prop) (l1 l2 : list A) (x : A) :
  StronglySorted R (l1 ++ x :: l2) ->
  Forall (fun y => R y x) l1 /\ Forall (R x) l2.
Proof.
  induction l1 as [|y l1 IH]; simpl; intros H; inversion H as [|? ? Hs Hy]; subst.
  - split; [constructor|exact Hy].
  - destruct (IH Hs) as [H1 H2]. split; [|exact H2].
    constructor; [|exact H1]. rewrite Forall_forall in Hy. apply Hy.
    apply in_or_app. right. now left.
Qed.

Lemma rank_sorted_position (before after : list MergedRow) :
  StronglySorted (fun x y => by_artist_ms_track_ms x y = true) (before ++ after) ->
  one_artist_ms (before ++ after) ->
  rank_first_desc before after = rank_by_position before after.
Proof.
  revert before. induction after as [|r after IH]; intros before Hs Hf;
    [reflexivity|].
  cbn [rank_first_desc rank_by_position].
  rewrite IH by (rewrite <- app_assoc; assumption).
  destruct (StronglySorted_split _ _ _ _ Hs) as [Hb Ha].
  rewrite Forall_forall in Hb, Ha.
  assert (E1 : filter (fun x => same_artist x r
                                && (track_ms (totals r) <=? track_ms (totals x)))
                      before
               = filter (fun x => same_artist x r) before).
  { apply filter_ext_in. intros x Hx.
    destruct (same_artist x r) eqn:E; [|reflexivity]. simpl.
    assert (Hms : artist_ms x = artist_ms r).
    { apply Hf; [apply in_or_app; now left|apply in_or_app; right; now left|exact E]. }
    specialize (Hb x Hx). unfold by_artist_ms_track_ms in Hb.
    apply Z.leb_le. bool_to_Z; lia. }
  assert (E2 : filter (fun x => same_artist x r
                                && (track_ms (totals r) <? track_ms (totals x)))
                      after = []).
  { apply filter_none. intros x Hx.
    destruct (same_artist x r) eqn:E; [|reflexivity]. simpl.
    assert (Hms : artist_ms x = artist_ms r).
    { apply Hf; [apply in_or_app; right; now right
                |apply in_or_app; right; now left|exact E]. }
    specialize (Ha x Hx). unfold by_artist_ms_track_ms in Ha.
    apply Z.ltb_ge. bool_to_Z; lia. }
  rewrite E1, E2, app_nil_r. reflexivity.
Qed.

Lemma rank_by_position_In (before after : list MergedRow) (r : RankedRow) :
  In r (rank_by_position before after) ->
  exists pre post,
    after = pre ++ merged r :: post
    /\ rank_in_artist r
       = 1 + Z.of_nat (List.length
                         (filter (fun x => same_artist x (merged r)) (before ++ pre))).
Proof.
  revert before. induction after as [|m after IH]; intros before;
    cbn [rank_by_position In]; [tauto|].
  intros [<-|Hin].
  - exists [], after. cbn [merged rank_in_artist app]. now rewrite app_nil_r.
  - destruct (IH _ Hin) as (pre & post & -> & Hr).
    exists (m :: pre), post. split; [reflexivity|].
    rewrite Hr. now rewrite <- app_assoc.
Qed.










(* ================================================================== *)
(** ** The engine as a whole *)

Lemma head_prefix {A} (n : Z) (l : list A) : exists k, head n l = firstn k l.
Proof. unfold head. destruct (0 <=? n); eexists; reflexivity. Qed.

Section EngineFacts.
Context {SV : SortValues} {SVS : SortValuesSpec SV}.
Variable df : list Row.

Lemma artist_top_NoDup (a : Z) : NoDup (map at_artist (artist_top df a)).
Proof.
  unfold artist_top. destruct (head_prefix a (artist_totals df)) as [k ->].
  pose proof (artist_totals_NoDup df) as Hnd.
  rewrite <- (firstn_skipn k (artist_totals df)), map_app in Hnd.
  now apply NoDup_app_remove_r in Hnd.
Qed.




Variables (a : Z) (f : option Z).

Lemma merged_totals :
  map totals (track_totals_merged df a f)
  = filter (fun t => in_top (artist_top df a) (tt_artist t))
           (track_totals_floor df f).
Proof. apply merge_inner_totals, artist_top_NoDup. Qed.

Lemma sorted_perm : Permutation (track_totals_sorted df a f) (track_totals_merged df a f).
Proof. apply stable_sort_perm. Qed.

Lemma sorted_one_artist_ms : one_artist_ms (track_totals_sorted df a f).
Proof.
  intros r1 r2 H1 H2.
  apply (merge_inner_one_artist_ms (track_totals_floor df f) (artist_top df a)
           (artist_top_NoDup a));
    (eapply Permutation_in; [apply sorted_perm|assumption]).
Qed.

Lemma ranked_by_position :
  track_totals_ranked df a f = rank_by_position [] (track_totals_sorted df a f).
Proof.
  unfold track_totals_ranked. apply rank_sorted_position.
  - apply sorted_frame_sorted.
  - apply sorted_one_artist_ms.
Qed.

Lemma ranked_merged :
  map merged (track_totals_ranked df a f) = track_totals_sorted df a f.
Proof. apply rank_first_desc_merged. Qed.

Lemma ordered_In (m : Z) (r : RankedRow) :
  In r (ordered df a m f)
  <-> In r (track_totals_ranked df a f) /\ rank_in_artist r <= m.
Proof.
  unfold ordered. rewrite stable_sort_In, filter_In, Z.leb_le. reflexivity.
Qed.

Lemma floor_In (t : TrackTotal) :
  In t (track_totals_floor df f)
  <-> In t (track_totals df)
      /\ match f with Some floor => floor < track_ms t | None => True end.
Proof.
  unfold track_totals_floor. destruct f as [floor|].
  - now rewrite filter_In, Z.ltb_lt.
  - tauto.
Qed.

Lemma ranked_In_merged (r : RankedRow) :
  In r (track_totals_ranked df a f) ->
  In (totals (merged r)) (track_totals_floor df f)
  /\ In (mkArtistTotal (row_artist r) (artist_ms (merged r))) (artist_top df a).
Proof.
  intros H. apply (in_map merged) in H. rewrite ranked_merged in H.
  apply (Permutation_in _ sorted_perm) in H.
  now apply merge_inner_In in H.
Qed.
End EngineFacts.

(* ================================================================== *)
(** ** The floor on track totals *)



(** The scenario of the specification: a floor of 50000 and a track
    total of exactly 50000; the track is left out and the other track
    of the artist takes rank 1. *)
Example floor_scenario :
  map (fun r => (tt_track (totals (merged r)), track_ms (totals (merged r)),
                 rank_in_artist r))
      (fst (_aggregate_and_order (SV := stable_sort_values) floor_rows 1 2
              (Some 50000)))
  = [("T2", 50001, 1)].
Proof. reflexivity. Qed.

(* ================================================================== *)
(** ** Growing the limits *)




(* ================================================================== *)
(** ** Size of the result *)



(** The bounds need the limits to be non-negative: [head] with a
    negative [top_artists] keeps all artists but the last ones. *)
Example negative_top_artists :
  map row_artist
      (fst (_aggregate_and_order (SV := stable_sort_values) three_artists (-1) 1 None))
  = ["A"; "C"]
  /\ fst (_aggregate_and_order (SV := stable_sort_values) three_artists 0 1 None) = [].
Proof. split; reflexivity. Qed.

(* ================================================================== *)
(** ** Ranks within an artist *)

Lemma key_ltb_before (t1 t2 : TrackTotal) :
  key_ltb (tt_key t1) (tt_key t2) = true <-> key_before t1 t2.
Proof.
  unfold key_ltb, key_before. destruct (kcmp (tt_key t1) (tt_key t2));
    split; congruence.
Qed.

Lemma outranks_irrefl (r : MergedRow) : outranks r r = false.
Proof.
  unfold outranks. rewrite same_artist_refl, Z.ltb_irrefl, Z.eqb_refl. simpl.
  destruct (key_ltb (tt_key (totals r)) (tt_key (totals r))) eqn:E; [|reflexivity].
  apply key_ltb_before in E. now apply key_before_irrefl in E.
Qed.

Lemma outranks_trans (x y z : MergedRow) :
  outranks x y = true -> outranks y z = true -> outranks x z = true.
Proof.
  unfold outranks. intros H1 H2.
  apply andb_true_iff in H1 as [S1 H1], H2 as [S2 H2].
  apply andb_true_iff. split; [eapply same_artist_trans; eassumption|].
  apply orb_true_iff in H1, H2. apply orb_true_iff.
  destruct H1 as [H1|H1], H2 as [H2|H2];
    try apply andb_true_iff in H1 as [H1 K1];
    try apply andb_true_iff in H2 as [H2 K2]; bool_to_Z.
  - left. apply Z.ltb_lt. lia.
  - left. apply Z.ltb_lt. lia.
  - left. apply Z.ltb_lt. lia.
  - right. apply andb_true_iff. split; [apply Z.eqb_eq; lia|].
    apply key_ltb_before. apply key_ltb_before in K1, K2.
    eapply key_before_trans; eassumption.
Qed.

Lemma StronglySorted_map_inv {A B} (f : A -> B) (R : B -> B -> Prop) (l : list A) :
  StronglySorted R (map f l) -> StronglySorted (fun x y => R (f x) (f y)) l.
Proof.
  induction l as [|x l IH]; simpl; intros H; [constructor|].
  inversion H as [|? ? Hs Hx]; subst. constructor; [now apply IH|].
  rewrite Forall_map in Hx. exact Hx.
Qed.

Lemma filter_map_length {A B} (f : A -> B) (p : B -> bool) (l : list A) :
  List.length (filter p (map f l)) = List.length (filter (fun x => p (f x)) l).
Proof.
  induction l as [|x l IH]; simpl; [reflexivity|].
  destruct (p (f x)); simpl; now rewrite IH.
Qed.

Lemma filter_length_lt {A} (p q : A -> bool) (l : list A) (z : A) :
  (forall x, In x l -> p x = true -> q x = true) ->
  In z l -> p z = false -> q z = true ->
  (List.length (filter p l) < List.length (filter q l))%nat.
Proof.
  induction l as [|x l IH]; simpl; [tauto|].
  intros Hpq [->|Hz] Hp Hq.
  - rewrite Hp, Hq. simpl.
    assert ((List.length (filter p l) <= List.length (filter q l))%nat); [|lia].
    clear -Hpq. induction l as [|y l IH]; simpl; [lia|].
    destruct (p y) eqn:E.
    + rewrite (Hpq y (or_intror (or_introl eq_refl)) E). simpl.
      apply le_n_S. apply IH. intros x [->|Hx]; apply Hpq; auto.
      right. now right.
    + assert ((List.length (filter p l) <= List.length (filter q l))%nat).
      { apply IH. intros x [->|Hx]; apply Hpq; auto. right. now right. }
      destruct (q y); simpl; lia.
  - assert ((List.length (filter p l) < List.length (filter q l))%nat).
    { apply IH; auto. }
    destruct (p x) eqn:E.
    + rewrite (Hpq x (or_introl eq_refl) E). simpl. lia.
    + destruct (q x); simpl; lia.
Qed.

Section RankFacts.
Context {SV : SortValues} {SVS : SortValuesSpec SV}.
Variables (df : list Row) (a : Z) (f : option Z).

Lemma merged_key_sorted :
StronglySorted (fun x y => key_before (totals x) (totals y))
               (track_totals_merged df a f).
Proof.
apply StronglySorted_map_inv. rewrite merged_totals.
apply StronglySorted_filter. unfold track_totals_floor.
destruct f; [apply StronglySorted_filter|]; apply track_totals_sorted_keys.
Qed.

(** Rows of one artist with one total stand in the sorted frame in the
  order of their keys. *)
Lemma sorted_ties_in_key_order (l1 l2 l3 : list MergedRow) (x y : MergedRow) :
track_totals_sorted df a f = l1 ++ x :: l2 ++ y :: l3 ->
same_artist x y = true ->
track_ms (totals x) = track_ms (totals y) ->
key_before (totals x) (totals y).
Proof.
intros E Hs Hms.
set (p := fun r => same_artist r x && (track_ms (totals r) =? track_ms (totals x))).
assert (Hst : filter p (track_totals_sorted df a f)
              = filter p (track_totals_merged df a f)).
{ apply stable_sort_stable;
    [apply by_artist_ms_track_ms_total|apply by_artist_ms_track_ms_trans|].
  intros r1 r2 H1 H2 P1 P2. unfold p in P1, P2.
  apply andb_true_iff in P1 as [S1 M1], P2 as [S2 M2].
  assert (S12 : same_artist r1 r2 = true).
  { eapply same_artist_trans; [exact S1|]. now rewrite same_artist_sym. }
  pose proof (merge_inner_one_artist_ms _ _ (artist_top_NoDup df a)
                r1 r2 H1 H2 S12) as Hams.
  unfold by_artist_ms_track_ms. bool_to_Z. apply orb_true_iff. right.
  apply andb_true_iff. split; [apply Z.eqb_eq|apply Z.leb_le]; lia. }
assert (Px : p x = true).
{ unfold p. now rewrite same_artist_refl, Z.eqb_refl. }
assert (Py : p y = true).
{ unfold p. rewrite same_artist_sym, Hs. simpl. apply Z.eqb_eq. lia. }
rewrite E in Hst. rewrite filter_app in Hst. cbn [filter] in Hst.
rewrite Px, filter_app in Hst. cbn [filter] in Hst. rewrite Py in Hst.
apply (StronglySorted_before (fun x y => key_before (totals x) (totals y))
         (filter p l1) (filter p l2) (filter p l3)).
rewrite Hst. apply StronglySorted_filter, merged_key_sorted.
Qed.

Lemma sorted_before_outranks (pre post : list MergedRow) (x y : MergedRow) :
track_totals_sorted df a f = pre ++ x :: post ->
In y pre -> same_artist y x = true -> outranks y x = true.
Proof.
intros E Hy Hs. apply in_split in Hy as (l1 & l2 & ->).
rewrite <- app_assoc in E. cbn [app] in E.
pose proof (sorted_frame_sorted (track_totals_merged df a f)) as Hsorted.
fold (track_totals_sorted df a f) in Hsorted. rewrite E in Hsorted.
apply StronglySorted_before in Hsorted.
assert (Hams : artist_ms y = artist_ms x).
{ apply (sorted_one_artist_ms df a f); [rewrite E..|exact Hs].
  - apply in_or_app. right. now left.
  - apply in_or_app. right. right. apply in_or_app. right. now left. }
unfold outranks. rewrite Hs. simpl. apply orb_true_iff.
unfold by_artist_ms_track_ms in Hsorted.
destruct (Z.eq_dec (track_ms (totals y)) (track_ms (totals x))) as [Heq|Hne].
- right. apply andb_true_iff. split; [now apply Z.eqb_eq|].
  apply key_ltb_before.
  exact (sorted_ties_in_key_order l1 l2 post y x E Hs Heq).
- left. apply Z.ltb_lt. bool_to_Z; lia.
Qed.

Lemma sorted_after_not_outranks (pre post : list MergedRow) (x y : MergedRow) :
track_totals_sorted df a f = pre ++ x :: post ->
In y post -> outranks y x = false.
Proof.
intros E Hy. destruct (same_artist y x) eqn:Hs;
  [|unfold outranks; now rewrite Hs].
apply in_split in Hy as (l1 & l2 & ->).
pose proof (sorted_frame_sorted (track_totals_merged df a f)) as Hsorted.
fold (track_totals_sorted df a f) in Hsorted. rewrite E in Hsorted.
apply StronglySorted_before in Hsorted.
assert (Hams : artist_ms y = artist_ms x).
{ apply (sorted_one_artist_ms df a f); [rewrite E..|exact Hs].
  - apply in_or_app. right. right. apply in_or_app. right. now left.
  - apply in_or_app. right. now left. }
unfold outranks. rewrite Hs. simpl. apply orb_false_iff.
unfold by_artist_ms_track_ms in Hsorted.
destruct (Z.eq_dec (track_ms (totals y)) (track_ms (totals x))) as [Heq|Hne].
- split; [apply Z.ltb_ge; lia|]. apply andb_false_iff. right.
  destruct (key_ltb (tt_key (totals y)) (tt_key (totals x))) eqn:K; [|reflexivity].
  apply key_ltb_before in K.
  assert (Hxy : same_artist x y = true) by now rewrite same_artist_sym.
  pose proof (sorted_ties_in_key_order pre l1 l2 x y E Hxy (eq_sym Heq)) as K'.
  exfalso. apply (key_before_irrefl (totals x)).
  eapply key_before_trans; eassumption.
- split; [apply Z.ltb_ge; bool_to_Z; lia|].
  apply andb_false_iff. left. now apply Z.eqb_neq.
Qed.

(** The rank of a row is one more than the number of rows that come
  before it in the ranking of its artist. *)
Lemma rank_counts_outrankers (r : RankedRow) :
In r (track_totals_ranked df a f) ->
rank_in_artist r
= 1 + Z.of_nat (List.length
                  (filter (fun x => outranks (merged x) (merged r))
                          (track_totals_ranked df a f))).
Proof.
intros Hr.
rewrite <- (filter_map_length merged (fun x => outranks x (merged r))).
rewrite ranked_merged.
rewrite ranked_by_position in Hr.
apply rank_by_position_In in Hr as (pre & post & E & ->).
cbn [app]. rewrite E, filter_app. cbn [filter].
rewrite outranks_irrefl.
rewrite (filter_none _ post)
  by (intros y Hy; exact (sorted_after_not_outranks pre post (merged r) y E Hy)).
rewrite app_nil_r. do 3 f_equal. apply filter_ext_in. intros y Hy.
destruct (same_artist y (merged r)) eqn:Hs.
- symmetry. exact (sorted_before_outranks pre post (merged r) y E Hy Hs).
- unfold outranks. now rewrite Hs.
Qed.
End RankFacts.

(** C2, as amended.  Within an artist, the rank of a track is one more
    than the number of the artist's tracks that have a larger total, or
    the same total and a smaller key (track name, then identifier, a
    missing identifier last); so ranks start at 1, a larger total gets
    the smaller rank, and of two tracks with equal totals the one with
    the smaller key gets the smaller rank, whichever was seen first in
    the input. *)
Theorem C2_rank_in_artist {SV : SortValues} {SVS : SortValuesSpec SV}
    (df : list Row) (top_artists : Z) (min_track_total_ms : option Z) :
  let ranked := track_totals_ranked df top_artists min_track_total_ms in
  (forall r, In r ranked ->
             rank_in_artist r
             = 1 + Z.of_nat (List.length
                               (filter (fun x => outranks (merged x) (merged r))
                                       ranked)))
  /\ (forall r1 r2, In r1 ranked -> In r2 ranked ->
                    outranks (merged r1) (merged r2) = true ->
                    rank_in_artist r1 < rank_in_artist r2).
Proof.
  simpl. split.
  - apply rank_counts_outrankers.
  - intros r1 r2 H1 H2 Ho.
    rewrite (rank_counts_outrankers df _ _ r1 H1),
            (rank_counts_outrankers df _ _ r2 H2).
    assert ((List.length (filter (fun x => outranks (merged x) (merged r1))
                                 (track_totals_ranked df top_artists min_track_total_ms))
             < List.length (filter (fun x => outranks (merged x) (merged r2))
                                   (track_totals_ranked df top_artists min_track_total_ms)))%nat);
      [|lia].
    apply (filter_length_lt _ _ _ r1).
    + intros x _ Hx. eapply outranks_trans; eassumption.
    + exact H1.
    + apply outranks_irrefl.
    + exact Ho.
Qed.

Lemma C2_rank_in_artist_witness :
  let ranked := track_totals_ranked (SV := stable_sort_values) t2_then_t1 1 None in
  let t1 := mkRanked (mkMerged (mkTrackTotal "A" "T1" (Some "spotify:track:1") 20000)
                               40000) 1 in
  let t2 := mkRanked (mkMerged (mkTrackTotal "A" "T2" (Some "spotify:track:2") 20000)
                               40000) 2 in
  In t1 ranked /\ In t2 ranked /\ rank_in_artist t1 < rank_in_artist t2.
Proof.
  intros ranked t1 t2.
  assert (H1 : In t1 ranked) by (vm_compute; auto).
  assert (H2 : In t2 ranked) by (vm_compute; auto).
  split; [exact H1|]. split; [exact H2|].
  exact (proj2 (C2_rank_in_artist (SV := stable_sort_values) t2_then_t1 1 None)
               t1 t2 H1 H2 eq_refl).
Defined.

(** The claim as it was stated fails: "T2" is seen first, both tracks
    have the same total, and "T1" gets rank 1. *)
Lemma C2_counterexample :
  ~ track_ties_by_first_seen t2_then_t1
      (track_totals_ranked (SV := stable_sort_values) t2_then_t1 1 None).
Proof.
  intros H.
  specialize (H (mkRanked (mkMerged (mkTrackTotal "A" "T2" (Some "spotify:track:2") 20000)
                                    40000) 2)
                (mkRanked (mkMerged (mkTrackTotal "A" "T1" (Some "spotify:track:1") 20000)
                                    40000) 1)
                0%nat 1%nat).
  vm_compute in H.
  assert (2 < 1); [|lia].
  apply H; auto.
Qed.

(** The scenario of the specification: two tracks of one artist tie,
    "T1" is seen first and has the smaller key; "T1" gets rank 1 and
    "T2" rank 2. *)
Example tied_tracks_scenario :
  map (fun r => (tt_track (totals (merged r)), rank_in_artist r))
      (track_totals_ranked (SV := stable_sort_values)
         [mkRow (Some 2024) (Some 20000) "A" "T1" (Some "spotify:track:1");
          mkRow (Some 2024) (Some 20000) "A" "T2" (Some "spotify:track:2")] 1 None)
  = [("T1", 1); ("T2", 2)].
Proof. reflexivity. Qed.


(* ================================================================== *)
(** * Properties of the loaders, the writers and the command line *)

(** ** Stripping *)

Lemma lstrip_no_lead (s : string) : starts_with_space (lstrip s) = false.
Proof.
  induction s as [|c s IH]; simpl; [reflexivity|].
  destruct (is_space c) eqn:E; [exact IH|]. simpl. exact E.
Qed.


Lemma rstrip_cons (c : ascii) (s : string) :
  rstrip (String c s)
  = match rstrip s with
    | EmptyString => if is_space c then EmptyString else String c EmptyString
    | r => String c r
    end.
Proof. reflexivity. Qed.

Lemma rstrip_no_lead (s : string) :
  starts_with_space s = false -> starts_with_space (rstrip s) = false.
Proof.
  destruct s as [|c s]; [reflexivity|]. rewrite rstrip_cons. simpl. intros E.
  destruct (rstrip s); simpl; now rewrite ?E.
Qed.


Lemma rstrip_no_trail (s : string) : ends_with_space (rstrip s) = false.
Proof.
  induction s as [|c s IH]; [reflexivity|]. rewrite rstrip_cons.
  destruct (rstrip s) as [|d r] eqn:E.
  - destruct (is_space c) eqn:Ec; simpl; [reflexivity|exact Ec].
  - exact IH.
Qed.


Lemma strip_no_lead (s : string) : starts_with_space (strip s) = false.
Proof. apply rstrip_no_lead, lstrip_no_lead. Qed.

Lemma strip_no_trail (s : string) : ends_with_space (strip s) = false.
Proof. apply rstrip_no_trail. Qed.

Lemma lstrip_chars (P : ascii -> Prop) (s : string) :
  Forall P (list_ascii_of_string s) -> Forall P (list_ascii_of_string (lstrip s)).
Proof.
  induction s as [|c s IH]; simpl; [trivial|]. intros H.
  destruct (is_space c); [|exact H]. inversion H; subst. now apply IH.
Qed.

Lemma rstrip_chars (P : ascii -> Prop) (s : string) :
  Forall P (list_ascii_of_string s) -> Forall P (list_ascii_of_string (rstrip s)).
Proof.
  induction s as [|c s IH]; [trivial|]. rewrite rstrip_cons. simpl. intros H.
  inversion H as [|? ? Hc Hs]; subst. specialize (IH Hs).
  destruct (rstrip s) as [|d r].
  - destruct (is_space c); simpl; auto.
  - simpl. constructor; assumption.
Qed.

Lemma strip_chars (P : ascii -> Prop) (s : string) :
  Forall P (list_ascii_of_string s) -> Forall P (list_ascii_of_string (strip s)).
Proof. intros H. now apply rstrip_chars, lstrip_chars. Qed.

(** ** The pattern file *)







(** ** File names *)

Lemma replace_forbidden_chars (s : string) :
  Forall (fun c => is_forbidden c = false)
         (list_ascii_of_string (replace_forbidden s)).
Proof.
  induction s as [|c s IH]; simpl; constructor; [|exact IH].
  destruct (is_forbidden c) eqn:E; [reflexivity|exact E].
Qed.


Lemma collapse_spaces_chars (P : ascii -> Prop) (b : bool) (s : string) :
  P " "%char -> Forall P (list_ascii_of_string s) ->
  Forall P (list_ascii_of_string (collapse_spaces b s)).
Proof.
  intros Hsp. revert b. induction s as [|c s IH]; intros b H; simpl; [constructor|].
  inversion H as [|? ? Hc Hs]; subst.
  destruct (is_space c); [destruct b|]; simpl; auto.
Qed.

Lemma collapse_spaces_single (b : bool) (s : string) :
  single_spaced b (collapse_spaces b s) = true.
Proof.
  revert b. induction s as [|c s IH]; intros b; simpl; [reflexivity|].
  destruct (is_space c) eqn:E.
  - destruct b; [apply IH|]. simpl. apply IH.
  - simpl. rewrite E. apply IH.
Qed.


Lemma single_spaced_weaken (s : string) :
  single_spaced true s = true -> single_spaced false s = true.
Proof.
  destruct s as [|c s]; simpl; [reflexivity|].
  destruct (is_space c); [|trivial]. rewrite andb_false_r. discriminate.
Qed.

Lemma lstrip_single (s : string) :
  single_spaced false s = true -> single_spaced false (lstrip s) = true.
Proof.
  induction s as [|c s IH]; simpl; [reflexivity|].
  destruct (is_space c) eqn:E.
  - intros H. apply andb_true_iff in H as [_ Hs].
    apply IH. now apply single_spaced_weaken.
  - intros H. simpl. now rewrite E.
Qed.

Lemma rstrip_single (b : bool) (s : string) :
  single_spaced b s = true -> single_spaced b (rstrip s) = true.
Proof.
  revert b. induction s as [|c s IH]; intros b; [reflexivity|].
  rewrite rstrip_cons. simpl.
  destruct (is_space c) eqn:E.
  - intros H. apply andb_true_iff in H as [H Hs]. specialize (IH true Hs).
    destruct (rstrip s) as [|d r]; [reflexivity|].
    change (single_spaced b (String c (String d r)))
      with (if is_space c
            then Ascii.eqb c " " && negb b && single_spaced true (String d r)
            else single_spaced false (String d r)).
    rewrite E, H. exact IH.
  - intros H. specialize (IH false H).
    destruct (rstrip s) as [|d r]; simpl; rewrite E; [reflexivity|exact IH].
Qed.

Lemma strip_single (s : string) :
  single_spaced false s = true -> single_spaced false (strip s) = true.
Proof. intros H. now apply rstrip_single, lstrip_single. Qed.


(** The name before the fallback to [playlist]. *)
Lemma sanitized_body (name : string) :
  let body := strip (collapse_spaces false (replace_forbidden name)) in
  Forall (fun c => is_forbidden c = false) (list_ascii_of_string body)
  /\ single_spaced false body = true
  /\ starts_with_space body = false
  /\ ends_with_space body = false.
Proof.
  simpl. repeat split.
  - apply strip_chars, collapse_spaces_chars;
      [reflexivity|apply replace_forbidden_chars].
  - apply strip_single, collapse_spaces_single.
  - apply strip_no_lead.
  - apply strip_no_trail.
Qed.

Lemma sanitize_chars (name : string) (c : ascii) :
  In c (list_ascii_of_string (_sanitize_filename name)) -> is_forbidden c = false.
Proof.
  unfold _sanitize_filename.
  destruct (sanitized_body name) as (H1 & _). simpl in H1.
  destruct (String.eqb_spec (strip (collapse_spaces false (replace_forbidden name))) "")
    as [E|E].
  - intros Hc. simpl in Hc.
    repeat (destruct Hc as [<-|Hc]; [reflexivity|]). destruct Hc.
  - rewrite Forall_forall in H1. apply H1.
Qed.



Lemma chars_append (a b : string) :
  list_ascii_of_string (a ++ b)%string
  = list_ascii_of_string a ++ list_ascii_of_string b.
Proof. induction a as [|c a IH]; simpl; [reflexivity|now rewrite IH]. Qed.

(** X5.  The name of the CSV file holds none of the characters that
    separate path components or are refused in file names, whatever
    the playlist is called, when the time stamp holds none. *)
Theorem X5_csv_file_name_is_safe (playlist_name stamp : string)
    (Hstamp : forall c, In c (list_ascii_of_string stamp) -> is_forbidden c = false) :
  forall c, In c (list_ascii_of_string (csv_file_name playlist_name stamp)) ->
            is_forbidden c = false.
Proof.
  intros c. unfold csv_file_name. rewrite !chars_append, !in_app_iff.
  intros [H|[H|[H|[H|H]]]].
  - simpl in H. repeat (destruct H as [<-|H]; [reflexivity|]). destruct H.
  - now apply (sanitize_chars playlist_name).
  - simpl in H. destruct H as [<-|[]]. reflexivity.
  - now apply Hstamp.
  - simpl in H. repeat (destruct H as [<-|H]; [reflexivity|]). destruct H.
Qed.

Lemma X5_csv_file_name_is_safe_witness :
  Forall (fun c => is_forbidden c = false)
         (list_ascii_of_string (csv_file_name "AC/DC: Live?" "20240131_0930")).
Proof.
  apply Forall_forall. apply X5_csv_file_name_is_safe.
  intros c Hc. vm_compute in Hc.
  repeat (destruct Hc as [<-|Hc]; [reflexivity|]). destruct Hc.
Defined.

(** ** Publishing in batches *)

Lemma firstn_add {A} (a b : nat) (l : list A) :
  firstn (a + b) l = firstn a l ++ firstn b (skipn a l).
Proof.
  revert l. induction a as [|a IH]; intros l; simpl; [reflexivity|].
  destruct l as [|x l]; simpl.
  - now rewrite firstn_nil.
  - now rewrite IH.
Qed.

Lemma batches_concat {A} (size n : nat) (l : list A) :
  List.concat (map (fun i => firstn size (skipn i l))
                   (map (fun k => (k * size)%nat) (seq 0 n)))
  = firstn (n * size) l.
Proof.
  induction n as [|n IH].
  - reflexivity.
  - rewrite seq_S, !map_app, concat_app, IH. simpl. rewrite app_nil_r.
    rewrite <- firstn_add. f_equal. simpl. lia.
Qed.

Lemma range_step_100 (stop i : nat) :
  In i (range_step stop 100) -> (i < stop)%nat.
Proof.
  unfold range_step. rewrite in_map_iff. intros (k & <- & Hk).
  apply in_seq in Hk.
  pose proof (Nat.div_mod_eq (stop + 99) 100) as Hd.
  pose proof (Nat.mod_upper_bound (stop + 99) 100 ltac:(lia)) as Hm.
  change (100 - 1)%nat with 99%nat in Hk. lia.
Qed.

Lemma range_step_100_covers (stop : nat) :
  (stop <= List.length (range_step stop 100) * 100)%nat.
Proof.
  unfold range_step. rewrite length_map, length_seq.
  pose proof (Nat.div_mod_eq (stop + 99) 100) as Hd.
  pose proof (Nat.mod_upper_bound (stop + 99) 100 ltac:(lia)) as Hm.
  change (100 - 1)%nat with 99%nat. lia.
Qed.

(** X6.  The first call creates the playlist and every later call adds
    to the playlist the service has returned; the batches added, put
    end to end, are the identifiers, each once and in order; a batch
    holds between 1 and 100 identifiers, and there are as many batches
    as hundreds begun.  The description sent is the first 300
    characters. *)
Theorem X6_publish_in_batches {Char} (user_id name : string) (uris : list string)
    (description : list Char) (playlist_id : string) (spotify_url : option string) :
  exists adds,
    fst (_create_playlist_and_add user_id name uris description
                                  playlist_id spotify_url)
    = user_playlist_create user_id name (firstn 300 description) :: adds
    /\ flat_map added_items adds = uris
    /\ (forall c, In c adds ->
          exists items, c = playlist_add_items playlist_id items
                        /\ (1 <= List.length items <= 100)%nat)
    /\ List.length adds = ((List.length uris + 99) / 100)%nat.
Proof.
  eexists. split; [reflexivity|]. repeat split.
  - rewrite flat_map_concat_map, map_map.
    change (fun x => added_items
                       (@playlist_add_items Char playlist_id
                          (firstn 100 (skipn x uris))))
      with (fun x => firstn 100 (skipn x uris)).
    unfold range_step. rewrite batches_concat. apply firstn_all2.
    pose proof (range_step_100_covers (List.length uris)) as H.
    unfold range_step in H. rewrite length_map, length_seq in H.
    change (100 - 1)%nat with 99%nat in H. exact H.
  - intros c Hc. apply in_map_iff in Hc as (i & <- & Hi).
    apply range_step_100 in Hi. eexists. split; [reflexivity|].
    rewrite length_firstn, length_skipn. lia.
  - rewrite length_map. unfold range_step. now rewrite length_map, length_seq.
Qed.

(** ** Loading the history *)

Lemma string_leb_trans (a b c : string) :
  String.leb a b = true -> String.leb b c = true -> String.leb a c = true.
Proof.
  unfold String.leb.
  destruct (String.compare a b) eqn:Eab; try discriminate;
    destruct (String.compare b c) eqn:Ebc; try discriminate; intros _ _.
  - apply String.compare_eq_iff in Eab, Ebc. subst.
    now rewrite string_compare_refl.
  - apply String.compare_eq_iff in Eab. subst. now rewrite Ebc.
  - apply String.compare_eq_iff in Ebc. subst. now rewrite Eab.
  - now rewrite (string_compare_trans _ _ _ Eab Ebc).
Qed.

Lemma string_leb_total (a b : string) :
  String.leb a b = true \/ String.leb b a = true.
Proof. apply String.leb_total. Qed.

(** A list in order is determined by its members. *)
Lemma sorted_perm_unique (l1 l2 : list string) :
  StronglySorted (fun x y => String.leb x y = true) l1 ->
  StronglySorted (fun x y => String.leb x y = true) l2 ->
  Permutation l1 l2 -> l1 = l2.
Proof.
  intros H1. revert l2. induction H1 as [|a l1 Hs1 IH Ha]; intros l2 H2 Hp.
  - apply Permutation_nil in Hp. now subst.
  - destruct H2 as [|b l2 Hs2 Hb].
    + symmetry in Hp. apply Permutation_nil in Hp. discriminate.
    + rewrite Forall_forall in Ha, Hb.
      assert (Hab : a = b).
      { assert (Ia : In a (b :: l2))
          by (eapply Permutation_in; [exact Hp|now left]).
        assert (Ib : In b (a :: l1))
          by (eapply Permutation_in; [symmetry; exact Hp|now left]).
        destruct Ia as [E|Ia]; [now symmetry|].
        destruct Ib as [E|Ib]; [exact E|].
        apply String.leb_antisym; auto. }
      subst b. f_equal. apply IH; [exact Hs2|].
      eapply Permutation_cons_inv. exact Hp.
Qed.

Lemma json_files_sorted (fs : FileSystem) (d : string) :
  StronglySorted (fun x y => String.leb x y = true) (json_files fs d).
Proof. apply stable_sort_sorted; [apply string_leb_total|apply string_leb_trans]. Qed.

Lemma json_files_In (fs : FileSystem) (d path : string) :
  In path (json_files fs d)
  <-> exists f, In f (listdir fs d) /\ is_json f = true /\ path = path_join d f.
Proof.
  unfold json_files. rewrite stable_sort_In, in_map_iff. split.
  - intros (f & <- & Hf). apply filter_In in Hf. exists f. tauto.
  - intros (f & Hf & Hj & ->). exists f. split; [reflexivity|].
    apply filter_In. tauto.
Qed.

Lemma read_frames_nil (read : string -> option (list RawEvent)) (files : list string) :
  read_frames read files = [] <-> forall p, In p files -> read p = None.
Proof.
  induction files as [|p files IH]; simpl.
  - split; [intros _ q []|reflexivity].
  - destruct (read p) eqn:E.
    + split; [discriminate|]. intros H. specialize (H p (or_introl eq_refl)).
      congruence.
    + rewrite IH. split.
      * intros H q [<-|Hq]; auto.
      * intros H q Hq. apply H. now right.
Qed.

Lemma read_frames_filter (read : string -> option (list RawEvent)) (files : list string) :
  read_frames read (filter (fun p => notna (read p)) files) = read_frames read files.
Proof.
  induction files as [|p files IH]; simpl; [reflexivity|].
  destruct (read p) eqn:E; simpl.
  - rewrite E. f_equal. exact IH.
  - exact IH.
Qed.

Lemma load_history_rows (fs : FileSystem) (d : string) (rows : list RawEvent) :
  _load_history fs d = inr rows ->
  rows = List.concat (read_frames (read_json fs) (json_files fs d))
  /\ read_frames (read_json fs) (json_files fs d) <> [].
Proof.
  unfold _load_history. destruct (isdir fs d); cbn [negb]; [|discriminate].
  destruct (json_files fs d) as [|p files] eqn:E; [discriminate|].
  destruct (read_frames (read_json fs) (p :: files)) as [|fr frs] eqn:F;
    [discriminate|].
  intros [= <-]. split; [reflexivity|discriminate].
Qed.

(** X7.  Loading succeeds exactly when the directory exists and holds a
    file, its name ending in [.json] in any case of the letters, that
    can be read; the rows are then the rows of the readable files, file
    after file in ascending order of the paths.  A missing directory or
    one without such a name raises [FileNotFoundError]; names but no
    readable file raise [RuntimeError]. *)
Theorem X7_load_history_outcome (fs : FileSystem) (source_dir : string) :
  ((exists rows, _load_history fs source_dir = inr rows)
   <-> isdir fs source_dir = true
       /\ exists f, In f (listdir fs source_dir) /\ is_json f = true
                    /\ read_json fs (path_join source_dir f) <> None)
  /\ (forall rows, _load_history fs source_dir = inr rows ->
        rows = List.concat (read_frames (read_json fs) (json_files fs source_dir)))
  /\ (isdir fs source_dir = false
      \/ (forall f, In f (listdir fs source_dir) -> is_json f = false) ->
      exists msg, _load_history fs source_dir = inl (FileNotFoundError msg))
  /\ (isdir fs source_dir = true ->
      (exists f, In f (listdir fs source_dir) /\ is_json f = true) ->
      (forall f, In f (listdir fs source_dir) -> is_json f = true ->
                 read_json fs (path_join source_dir f) = None) ->
      _load_history fs source_dir = inl (Raised (RuntimeError "No readable JSON files."))).
Proof.
  split; [|split; [|split]].
  - split.
    + intros [rows H]. pose proof (load_history_rows _ _ _ H) as [_ Hne].
      unfold _load_history in H. destruct (isdir fs source_dir); [|discriminate].
      split; [reflexivity|].
      destruct (read_frames_nil (read_json fs) (json_files fs source_dir)) as [_ Hn].
      assert (Hex : ~ forall p, In p (json_files fs source_dir) ->
                                read_json fs p = None) by (intros Hall; auto).
      clear -Hex.
      assert (Hsome : exists p, In p (json_files fs source_dir)
                                /\ read_json fs p <> None).
      { induction (json_files fs source_dir) as [|p files IH].
        - exfalso. apply Hex. intros q [].
        - destruct (read_json fs p) eqn:E.
          + exists p. split; [now left|congruence].
          + destruct IH as (q & Hq & Hr).
            * intros Hall. apply Hex. intros q [<-|Hq]; auto.
            * exists q. split; [now right|exact Hr]. }
      destruct Hsome as (p & Hp & Hr).
      apply json_files_In in Hp as (f & Hf & Hj & ->). now exists f.
    + intros (Hd & f & Hf & Hj & Hr). unfold _load_history. rewrite Hd. cbn [negb].
      assert (Hp : In (path_join source_dir f) (json_files fs source_dir))
        by (apply json_files_In; now exists f).
      destruct (json_files fs source_dir) as [|p files] eqn:E; [destruct Hp|].
      destruct (read_frames (read_json fs) (p :: files)) as [|fr frs] eqn:F.
      * exfalso. apply Hr. exact (proj1 (read_frames_nil _ _) F _ Hp).
      * eexists. reflexivity.
  - intros rows H. now apply load_history_rows in H.
  - intros [Hd|Hn]; unfold _load_history.
    + rewrite Hd. cbn [negb]. eexists. reflexivity.
    + destruct (isdir fs source_dir); cbn [negb]; [|eexists; reflexivity].
      destruct (json_files fs source_dir) as [|p files] eqn:E;
        [eexists; reflexivity|].
      assert (Hp : In p (json_files fs source_dir)) by (rewrite E; now left).
      apply json_files_In in Hp as (f & Hf & Hj & _).
      rewrite (Hn f Hf) in Hj. discriminate.
  - intros Hd (f & Hf & Hj) Hall. unfold _load_history. rewrite Hd. cbn [negb].
    assert (Hp : In (path_join source_dir f) (json_files fs source_dir))
      by (apply json_files_In; now exists f).
    assert (Hnil : read_frames (read_json fs) (json_files fs source_dir) = []).
    { apply read_frames_nil. intros q Hq.
      apply json_files_In in Hq as (g & Hg & Hgj & ->). now apply Hall. }
    destruct (json_files fs source_dir) as [|p files] eqn:E; [destruct Hp|].
    rewrite Hnil. reflexivity.
Qed.

(** X8.  The order in which the directory lists its entries plays no
    part: two listings with the same entries load the same rows in the
    same order, or fail alike. *)
Theorem X8_listing_order_irrelevant (fs : FileSystem) (ls : string -> list string)
    (source_dir : string)
    (Hperm : Permutation (listdir fs source_dir) (ls source_dir)) :
  _load_history (with_listdir fs ls) source_dir = _load_history fs source_dir.
Proof.
  assert (E : json_files (with_listdir fs ls) source_dir = json_files fs source_dir).
  { apply sorted_perm_unique; try apply json_files_sorted.
    unfold json_files. rewrite !stable_sort_perm. simpl.
    apply Permutation_map. symmetry.
    clear -Hperm. induction Hperm; simpl.
    - reflexivity.
    - destruct (is_json x); [now constructor|assumption].
    - destruct (is_json x), (is_json y); try reflexivity. apply perm_swap.
    - etransitivity; eassumption. }
  unfold _load_history. rewrite E. reflexivity.
Qed.

Lemma X8_listing_order_irrelevant_witness :
  _load_history (with_listdir sample_fs other_listing) "data"
  = _load_history sample_fs "data".
Proof.
  apply X8_listing_order_irrelevant. vm_compute.
  apply Permutation_cons_app with (l1 := ["broken.json"; "A.JSON"]) (l2 := ["notes.txt"]).
  apply Permutation_cons_app with (l1 := ["broken.json"; "A.JSON"]) (l2 := []).
  apply Permutation_cons_app with (l1 := ["broken.json"]) (l2 := []).
  apply Permutation_refl.
Defined.

(** X9.  A file that cannot be read is passed over: when loading
    succeeds, it yields the same rows as in a directory from which the
    unreadable files are gone. *)
Theorem X9_unreadable_files_skipped (fs : FileSystem) (source_dir : string)
    (rows : list RawEvent) (Hload : _load_history fs source_dir = inr rows) :
  _load_history
    (with_listdir fs (fun d => filter (readable fs d) (listdir fs d))) source_dir
  = inr rows.
Proof.
  pose proof (load_history_rows _ _ _ Hload) as [Hrows Hne].
  set (fs' := with_listdir fs (fun d => filter (readable fs d) (listdir fs d))).
  assert (E : json_files fs' source_dir
              = filter (fun p => notna (read_json fs p)) (json_files fs source_dir)).
  { unfold json_files, fs'. simpl.
    rewrite (stable_sort_filter String.leb string_leb_total string_leb_trans).
    f_equal. rewrite filter_comp.
    induction (listdir fs source_dir) as [|f l IH]; simpl; [reflexivity|].
    unfold readable at 1.
    destruct (notna (read_json fs (path_join source_dir f))) eqn:Er,
             (is_json f) eqn:Ej; simpl; rewrite ?Er; simpl; rewrite ?IH; reflexivity. }
  pose proof Hload as H0. unfold _load_history in H0.
  destruct (isdir fs source_dir) eqn:Hd; cbn [negb] in H0; [|discriminate].
  clear H0. unfold _load_history.
  change (isdir fs' source_dir) with (isdir fs source_dir). rewrite Hd. cbn [negb].
  change (read_json fs') with (read_json fs). rewrite E.
  pose proof (read_frames_filter (read_json fs) (json_files fs source_dir)) as F.
  destruct (filter (fun p => notna (read_json fs p)) (json_files fs source_dir))
    as [|p files] eqn:G.
  - exfalso. apply Hne. symmetry. exact F.
  - rewrite F.
    destruct (read_frames (read_json fs) (json_files fs source_dir)) eqn:R;
      [congruence|].
    now rewrite Hrows.
Qed.

Lemma X9_unreadable_files_skipped_witness :
  _load_history
    (with_listdir sample_fs (fun d => filter (readable sample_fs d) (listdir sample_fs d)))
    "data"
  = inr [event_of_2024; event_without_timestamp].
Proof.
  apply X9_unreadable_files_skipped. reflexivity.
Defined.

(* ================================================================== *)
(** * Properties of the pipeline from end to end *)

(** ** The pipeline as a whole *)

Lemma filter_Permutation {A} (p : A -> bool) (l l' : list A) :
  Permutation l l' -> Permutation (filter p l) (filter p l').
Proof.
  induction 1 as [|x l l' H IH|x y l|l l' l'' H1 IH1 H2 IH2]; simpl.
  - constructor.
  - destruct (p x); [now constructor|exact IH].
  - destruct (p x), (p y); try apply Permutation_refl. apply perm_swap.
  - etransitivity; eassumption.
Qed.

Lemma select_columns_Permutation (l l' : list RawEvent) :
  Permutation l l' -> Permutation (select_columns l) (select_columns l').
Proof.
  induction 1 as [|x l l' H IH|x y l|l l' l'' H1 IH1 H2 IH2]; simpl.
  - constructor.
  - destruct (to_row x); [now constructor|exact IH].
  - destruct (to_row x), (to_row y); try apply Permutation_refl. apply perm_swap.
  - etransitivity; eassumption.
Qed.

Lemma select_columns_In (l : list RawEvent) (r : Row) :
  In r (select_columns l) <-> exists e, In e l /\ to_row e = Some r.
Proof.
  induction l as [|e l IH]; simpl.
  - split; [intros []|intros (e & [] & _)].
  - destruct (to_row e) as [r'|] eqn:E; simpl; rewrite IH; split.
    + intros [<-|(e' & He & Hr)]; [exists e; auto|exists e'; auto].
    + intros (e' & [<-|He] & Hr); [left; congruence|right; now exists e'].
    + intros (e' & He & Hr). exists e'; auto.
    + intros (e' & [<-|He] & Hr); [congruence|now exists e'].
Qed.

Lemma filter_music_events_Permutation (df df' : list RawEvent) (min_play_ms : Z)
    (year_start year_end : option Z) :
  Permutation df df' ->
  Permutation (filter_music_events df min_play_ms year_start year_end)
              (filter_music_events df' min_play_ms year_start year_end).
Proof.
  intros H. unfold filter_music_events.
  destruct (truthy year_start), (truthy year_end); simpl;
    repeat apply filter_Permutation; exact H.
Qed.

Lemma filter_music_rows_Permutation (df df' : list RawEvent) (min_play_ms : Z)
    (year_start year_end : option Z) :
  Permutation df df' ->
  Permutation (_filter_music_rows df min_play_ms year_start year_end)
              (_filter_music_rows df' min_play_ms year_start year_end).
Proof.
  intros H. now apply select_columns_Permutation, filter_music_events_Permutation.
Qed.

(** The engine reads its frame through the two grouped tables only. *)
Lemma aggregate_Permutation {SV : SortValues} (df df' : list Row)
    (top_artists tracks_per_artist : Z) (min_track_total_ms : option Z) :
  Permutation df df' ->
  _aggregate_and_order df' top_artists tracks_per_artist min_track_total_ms
  = _aggregate_and_order df top_artists tracks_per_artist min_track_total_ms.
Proof.
  intros H.
  assert (Ha : artist_totals_grouped df' = artist_totals_grouped df).
  { unfold artist_totals_grouped. f_equal. symmetry.
    apply groupby_sum_perm; first [exact H|typeclasses eauto]. }
  assert (Ht : track_totals df' = track_totals df).
  { unfold track_totals. f_equal. symmetry.
    apply groupby_sum_perm; first [exact H|typeclasses eauto]. }
  unfold _aggregate_and_order, ordered, track_totals_ranked, track_totals_sorted,
    track_totals_merged, track_totals_floor, artist_top, artist_totals.
  now rewrite Ha, Ht.
Qed.

(** The pattern filter is a selection of rows by a condition on the
    row, or the error of the mode, whatever the frame. *)
Lemma apply_artist_patterns_uniform (patterns : list string) (mode : string) :
  (patterns <> [] /\ mode <> "include" /\ mode <> "exclude"
   /\ forall rows, _apply_artist_patterns rows patterns mode = raise mode_error)
  \/ exists keep, forall rows,
       _apply_artist_patterns rows patterns mode = ret (filter keep rows).
Proof.
  destruct patterns as [|p ps].
  - right. exists (fun _ => true). intros rows. simpl.
    now rewrite filter_all.
  - assert (Hne : p :: ps <> []) by discriminate.
    destruct (String.eqb_spec mode "include") as [Ei|Ei].
    + right. eexists. intros rows.
      rewrite apply_artist_patterns_compiled by exact Hne.
      subst mode. reflexivity.
    + destruct (String.eqb_spec mode "exclude") as [Ee|Ee].
      * right. eexists. intros rows.
        rewrite apply_artist_patterns_compiled by exact Hne.
        subst mode. reflexivity.
      * left. repeat split; auto. intros rows.
        rewrite apply_artist_patterns_compiled by exact Hne.
        apply String.eqb_neq in Ei, Ee. now rewrite Ei, Ee.
Qed.

(** [create_playlist], step by step. *)
Lemma create_playlist_steps {SV : SortValues} (patterns : list string)
    (df_raw : list RawEvent) (year_start year_end : option Z)
    (top_artists tracks_per_artist min_play_ms : Z)
    (min_track_total_ms : option Z) (mode : string) :
  create_playlist patterns df_raw year_start year_end top_artists
    tracks_per_artist min_play_ms min_track_total_ms mode
  = match _filter_music_rows df_raw min_play_ms year_start year_end with
    | [] => (["[STEP 1/6]"; "[STEP 2/6]"],
             inl (RuntimeError "No valid music rows after filtering."))
    | r :: rows =>
        match _apply_artist_patterns (r :: rows) patterns mode with
        | (out, inl e) => ("[STEP 1/6]" :: "[STEP 2/6]" :: out, inl e)
        | (out, inr df) =>
            ("[STEP 1/6]" :: "[STEP 2/6]" :: out ++ ["[STEP 3/6]"],
             match snd (_aggregate_and_order df top_artists tracks_per_artist
                          min_track_total_ms) with
             | [] => inl (RuntimeError "No valid Spotify track URIs to add.")
             | _ => inr (_aggregate_and_order df top_artists tracks_per_artist
                           min_track_total_ms)
             end)
        end
    end.
Proof.
  unfold create_playlist.
  destruct (_filter_music_rows df_raw min_play_ms year_start year_end)
    as [|r rows]; [reflexivity|].
  replace (match patterns with
           | [] => ret (r :: rows)
           | _ :: _ => _apply_artist_patterns (r :: rows) patterns mode
           end)
    with (_apply_artist_patterns (r :: rows) patterns mode)
    by (destruct patterns; reflexivity).
  destruct (_apply_artist_patterns (r :: rows) patterns mode) as [out [e|df]].
  - reflexivity.
  - unfold bind, print, ret, raise. cbn [app].
    destruct (snd (_aggregate_and_order df top_artists tracks_per_artist
                     min_track_total_ms)); reflexivity.
Qed.

(** X10.  The order of the events in the history plays no part: two
    histories with the same events give the same table, the same
    identifiers in the same order, the same output and the same
    error. *)
Theorem X10_event_order_irrelevant {SV : SortValues} (patterns : list string)
    (df_raw df_raw' : list RawEvent) (year_start year_end : option Z)
    (top_artists tracks_per_artist min_play_ms : Z)
    (min_track_total_ms : option Z) (mode : string)
    (Hperm : Permutation df_raw df_raw') :
  create_playlist patterns df_raw' year_start year_end top_artists
    tracks_per_artist min_play_ms min_track_total_ms mode
  = create_playlist patterns df_raw year_start year_end top_artists
      tracks_per_artist min_play_ms min_track_total_ms mode.
Proof.
  rewrite !create_playlist_steps.
  pose proof (filter_music_rows_Permutation _ _ min_play_ms year_start year_end Hperm)
    as Hrows.
  destruct (_filter_music_rows df_raw min_play_ms year_start year_end) as [|r rows],
    (_filter_music_rows df_raw' min_play_ms year_start year_end) as [|r' rows'].
  - reflexivity.
  - apply Permutation_nil in Hrows. discriminate.
  - symmetry in Hrows. apply Permutation_nil in Hrows. discriminate.
  - destruct (apply_artist_patterns_uniform patterns mode)
      as [(_ & _ & _ & H)|[keep H]]; rewrite !H.
    + reflexivity.
    + unfold ret.
      now rewrite (aggregate_Permutation (filter keep (r :: rows))
                     (filter keep (r' :: rows')))
        by now apply filter_Permutation.
Qed.

Lemma X10_event_order_irrelevant_witness :
  create_playlist (SV := stable_sort_values) ["b"] (rev sample_history)
    None None 2 2 30000 None "exclude"
  = create_playlist (SV := stable_sort_values) ["b"] sample_history
      None None 2 2 30000 None "exclude".
Proof. apply X10_event_order_irrelevant. apply Permutation_rev. Defined.

(** X11.  A run of the pipeline ends in one of four ways: no event
    passes the event filter; the mode of the pattern filter is unknown
    and there are patterns; the table yields no identifier; or a table
    that is not empty is handed over with its identifiers, of which
    there is at least one.  The banner of the third step is printed in
    the last two cases only, and no other error is raised. *)
Theorem X11_create_playlist_outcomes {SV : SortValues} (patterns : list string)
    (df_raw : list RawEvent) (year_start year_end : option Z)
    (top_artists tracks_per_artist min_play_ms : Z)
    (min_track_total_ms : option Z) (mode : string) :
  let run := create_playlist patterns df_raw year_start year_end top_artists
               tracks_per_artist min_play_ms min_track_total_ms mode in
  (_filter_music_rows df_raw min_play_ms year_start year_end = []
   /\ run = (["[STEP 1/6]"; "[STEP 2/6]"],
             inl (RuntimeError "No valid music rows after filtering.")))
  \/ (patterns <> [] /\ mode <> "include" /\ mode <> "exclude"
      /\ run = (["[STEP 1/6]"; "[STEP 2/6]"], inl mode_error))
  \/ run = (["[STEP 1/6]"; "[STEP 2/6]"; "[STEP 3/6]"],
            inl (RuntimeError "No valid Spotify track URIs to add."))
  \/ exists table uris,
       run = (["[STEP 1/6]"; "[STEP 2/6]"; "[STEP 3/6]"], inr (table, uris))
       /\ uris = dedup_uris table /\ uris <> [] /\ table <> [].
Proof.
  cbv zeta. rewrite create_playlist_steps.
  destruct (_filter_music_rows df_raw min_play_ms year_start year_end)
    as [|r rows]; [left; split; reflexivity|].
  right.
  destruct (apply_artist_patterns_uniform patterns mode)
    as [(H1 & H2 & H3 & H)|[keep H]]; rewrite H.
  - left. repeat split; assumption.
  - right. unfold ret. cbn [app]. unfold _aggregate_and_order. cbn [snd].
    set (table := ordered (filter keep (r :: rows)) top_artists tracks_per_artist
                    min_track_total_ms).
    destruct (dedup_uris table) as [|u uris] eqn:E; [left; reflexivity|].
    right. exists table, (u :: uris). rewrite E.
    repeat split; try discriminate.
    intros Ht. rewrite Ht in E. discriminate.
Qed.

Lemma filter_music_events_In (df : list RawEvent) (min_play_ms : Z)
    (year_start year_end : option Z) (e : RawEvent) :
  In e (filter_music_events df min_play_ms year_start year_end) ->
  In e df /\ episode_name e = None /\ audiobook_title e = None
  /\ min_play_ms <= fillna0 (ms_played e).
Proof.
  unfold filter_music_events. intros H.
  assert (H0 : In e (filter (fun e => min_play_ms <=? fillna0 (ms_played e))
                       (filter (fun e => notna (master_metadata_track_name e)
                                         && notna (master_metadata_album_artist_name e))
                          (filter (fun e => isna (episode_name e)
                                            && isna (audiobook_title e)) df)))).
  { destruct (truthy year_start), (truthy year_end); cbn [orb] in H.
    - do 3 (apply filter_In in H as [H _]). exact H.
    - do 2 (apply filter_In in H as [H _]). exact H.
    - do 2 (apply filter_In in H as [H _]). exact H.
    - exact H. }
  apply filter_In in H0 as [H0 Hms]. apply filter_In in H0 as [H0 _].
  apply filter_In in H0 as [H0 Hpod]. apply andb_true_iff in Hpod as [Hep Hab].
  apply Z.leb_le in Hms.
  destruct (episode_name e); [discriminate|].
  destruct (audiobook_title e); [discriminate|]. auto.
Qed.

Lemma filter_music_rows_In (df : list RawEvent) (min_play_ms : Z)
    (year_start year_end : option Z) (r : Row) :
  In r (_filter_music_rows df min_play_ms year_start year_end) ->
  exists e, In e df /\ to_row e = Some r
            /\ episode_name e = None /\ audiobook_title e = None
            /\ min_play_ms <= fillna0 (ms_played e).
Proof.
  unfold _filter_music_rows. rewrite select_columns_In. intros (e & He & Hr).
  apply filter_music_events_In in He. exists e. tauto.
Qed.

(** Every row of the table stands for a track of the frame. *)
Lemma table_row_from_frame {SV : SortValues} (df : list Row)
    (top_artists tracks_per_artist : Z) (min_track_total_ms : option Z)
    (row : RankedRow) :
  In row (ordered df top_artists tracks_per_artist min_track_total_ms) ->
  exists r, In r df /\ track_key r = tt_key (totals (merged row)).
Proof.
  intros H. apply ordered_In in H as [H _]. apply ranked_In_merged in H as [H _].
  apply floor_In in H as [H _]. apply track_totals_In in H as [H _].
  apply in_map_iff in H as (r & Hk & Hr). now exists r.
Qed.

Lemma dedup_uris_In (table : list RankedRow) (u : string) :
  In u (dedup_uris table) <-> exists row, In row table /\ row_uri row = Some u.
Proof.
  unfold dedup_uris. rewrite dedup_walk_In, in_map_iff. split.
  - intros [(row & H1 & H2) _]. now exists row.
  - intros (row & H1 & H2). split; [now exists row|intros []].
Qed.

(** X12.  Every identifier handed over is the identifier of a row of
    the table, and of an event of the history with the artist and the
    track of that row, which is no podcast episode and no audiobook and
    was played for [min_play_ms] at least. *)
Theorem X12_published_tracks_were_played {SV : SortValues} (patterns : list string)
    (df_raw : list RawEvent) (year_start year_end : option Z)
    (top_artists tracks_per_artist min_play_ms : Z)
    (min_track_total_ms : option Z) (mode : string)
    (table : list RankedRow) (uris : list string)
    (Hrun : outcome (create_playlist patterns df_raw year_start year_end top_artists
                       tracks_per_artist min_play_ms min_track_total_ms mode)
            = inr (table, uris)) :
  forall u, In u uris ->
    exists row e,
      In row table /\ row_uri row = Some u
      /\ In e df_raw /\ spotify_track_uri e = Some u
      /\ master_metadata_album_artist_name e = Some (row_artist row)
      /\ master_metadata_track_name e = Some (tt_track (totals (merged row)))
      /\ episode_name e = None /\ audiobook_title e = None
      /\ min_play_ms <= fillna0 (ms_played e).
Proof.
  rewrite create_playlist_steps in Hrun.
  pose proof (filter_music_rows_In df_raw min_play_ms year_start year_end) as Hrows.
  destruct (_filter_music_rows df_raw min_play_ms year_start year_end)
    as [|r rows]; [discriminate|].
  destruct (apply_artist_patterns_uniform patterns mode)
    as [(_ & _ & _ & H)|[keep H]]; rewrite H in Hrun; [discriminate|].
  unfold ret, outcome in Hrun. cbn [snd] in Hrun.
  unfold _aggregate_and_order in Hrun. cbn [snd] in Hrun.
  set (df := filter keep (r :: rows)) in *.
  destruct (dedup_uris (ordered df top_artists tracks_per_artist min_track_total_ms))
    eqn:E; [discriminate|].
  injection Hrun as <- <-. rewrite <- E. clear E.
  intros u Hu. apply dedup_uris_In in Hu as (row & Hrow & Hu).
  destruct (table_row_from_frame _ _ _ _ _ Hrow) as (x & Hx & Hk).
  apply filter_In in Hx as [Hx _].
  destruct (Hrows x Hx) as (e & He & Hr & Hep & Hab & Hms).
  exists row, e. unfold to_row in Hr.
  destruct (master_metadata_album_artist_name e) as [a|]; [|discriminate].
  destruct (master_metadata_track_name e) as [t|]; [|discriminate].
  injection Hr as <-. unfold track_key, tt_key in Hk. cbn in Hk.
  injection Hk as Ha Ht Hur. unfold row_uri in Hu. unfold row_artist.
  repeat split; auto; congruence.
Qed.

Lemma X12_published_tracks_were_played_witness :
  exists row e,
    In row (fst (_aggregate_and_order (SV := stable_sort_values)
                   (_filter_music_rows sample_history 30000 None None) 2 2 None))
    /\ row_uri row = Some "spotify:track:2"
    /\ In e sample_history /\ spotify_track_uri e = Some "spotify:track:2"
    /\ master_metadata_album_artist_name e = Some (row_artist row)
    /\ master_metadata_track_name e = Some (tt_track (totals (merged row)))
    /\ episode_name e = None /\ audiobook_title e = None
    /\ 30000 <= fillna0 (ms_played e).
Proof.
  apply (X12_published_tracks_were_played (SV := stable_sort_values) []
           sample_history None None 2 2 30000 None "exclude"
           (fst (_aggregate_and_order (SV := stable_sort_values)
                   (_filter_music_rows sample_history 30000 None None) 2 2 None))
           ["spotify:track:1"; "spotify:track:2"]).
  - vm_compute. reflexivity.
  - simpl. auto.
Defined.

(** ** Sums of the grouped tables *)









Lemma rank_first_desc_pos (before after : list MergedRow) (r : RankedRow) :
  In r (rank_first_desc before after) -> 1 <= rank_in_artist r.
Proof.
  revert before. induction after as [|x after IH]; intros before; [intros []|].
  cbn [rank_first_desc]. intros [<-|H]; [cbn [rank_in_artist]; lia|].
  now apply IH in H.
Qed.

Lemma merge_inner_nil_r (left : list TrackTotal) : merge_inner left [] = [].
Proof. induction left as [|t left IH]; [reflexivity|exact IH]. Qed.

Lemma aggregate_zero_limits {SV : SortValues} (df : list Row)
    (top_artists tracks_per_artist : Z) (min_track_total_ms : option Z) :
  top_artists = 0 \/ tracks_per_artist <= 0 ->
  _aggregate_and_order df top_artists tracks_per_artist min_track_total_ms = ([], []).
Proof.
  intros Hlim. unfold _aggregate_and_order.
  assert (E : ordered df top_artists tracks_per_artist min_track_total_ms = []).
  { unfold ordered. destruct Hlim as [->|Hm].
    - unfold track_totals_ranked, track_totals_sorted, track_totals_merged, artist_top.
      change (head 0 (artist_totals df)) with (@nil ArtistTotal).
      rewrite merge_inner_nil_r. reflexivity.
    - rewrite filter_none; [reflexivity|].
      intros r Hr. apply rank_first_desc_pos in Hr. apply Z.leb_gt. lia. }
  rewrite E. reflexivity.
Qed.

(** X14.  With [top_artists = 0], or with [tracks_per_artist] at 0 or
    below, the table and the identifiers are empty for every frame, and
    the run ends in an error, never in a playlist. *)
Theorem X14_zero_limits {SV : SortValues} (patterns : list string)
    (df_raw : list RawEvent) (year_start year_end : option Z)
    (top_artists tracks_per_artist min_play_ms : Z)
    (min_track_total_ms : option Z) (mode : string)
    (Hlim : top_artists = 0 \/ tracks_per_artist <= 0) :
  (forall df, _aggregate_and_order df top_artists tracks_per_artist
                min_track_total_ms = ([], []))
  /\ exists e, outcome (create_playlist patterns df_raw year_start year_end
                          top_artists tracks_per_artist min_play_ms
                          min_track_total_ms mode) = inl e.
Proof.
  split; [intros df; now apply aggregate_zero_limits|].
  rewrite create_playlist_steps.
  destruct (_filter_music_rows df_raw min_play_ms year_start year_end)
    as [|r rows]; [eexists; reflexivity|].
  destruct (_apply_artist_patterns (r :: rows) patterns mode) as [out [e|df]];
    [eexists; reflexivity|].
  rewrite aggregate_zero_limits by exact Hlim. eexists. reflexivity.
Qed.

Lemma X14_zero_limits_witness :
  exists e, outcome (create_playlist (SV := stable_sort_values) [] sample_history
                       None None 0 5 30000 None "exclude") = inl e.
Proof.
  exact (proj2 (X14_zero_limits (SV := stable_sort_values) [] sample_history
                  None None 0 5 30000 None "exclude" (or_introl eq_refl))).
Defined.

(** X15.  No check follows the pattern filter: when it leaves no row,
    the run goes on to the aggregation and ends with the error of the
    missing identifiers, not with the error of the missing rows. *)
Theorem X15_patterns_leave_nothing {SV : SortValues} (patterns : list string)
    (df_raw : list RawEvent) (year_start year_end : option Z)
    (top_artists tracks_per_artist min_play_ms : Z)
    (min_track_total_ms : option Z) (mode : string)
    (Hrows : _filter_music_rows df_raw min_play_ms year_start year_end <> [])
    (Hnone : _apply_artist_patterns
               (_filter_music_rows df_raw min_play_ms year_start year_end)
               patterns mode = ret []) :
  create_playlist patterns df_raw year_start year_end top_artists
    tracks_per_artist min_play_ms min_track_total_ms mode
  = (["[STEP 1/6]"; "[STEP 2/6]"; "[STEP 3/6]"],
     inl (RuntimeError "No valid Spotify track URIs to add.")).
Proof.
  rewrite create_playlist_steps.
  destruct (_filter_music_rows df_raw min_play_ms year_start year_end)
    as [|r rows]; [congruence|].
  rewrite Hnone. unfold ret. cbn [app].
  unfold _aggregate_and_order, ordered, track_totals_ranked, track_totals_sorted,
    track_totals_merged.
  assert (E : track_totals_floor [] min_track_total_ms = [])
    by (destruct min_track_total_ms; reflexivity).
  rewrite E. reflexivity.
Qed.

Lemma X15_patterns_leave_nothing_witness :
  create_playlist (SV := stable_sort_values) ["zappa"] sample_history
    None None 2 2 30000 None "include"
  = (["[STEP 1/6]"; "[STEP 2/6]"; "[STEP 3/6]"],
     inl (RuntimeError "No valid Spotify track URIs to add.")).
Proof.
  apply X15_patterns_leave_nothing.
  - vm_compute. discriminate.
  - vm_compute. reflexivity.
Defined.

(** X16.  For a non-empty pattern list, [include] and [exclude] split
    the frame: each row is in one of the two results and in no more
    than one, and each result keeps the order of the frame. *)
Theorem X16_include_exclude_split (df : list Row) (patterns : list string)
    (Hne : patterns <> []) :
  exists inc exc,
    _apply_artist_patterns df patterns "include" = ret inc
    /\ _apply_artist_patterns df patterns "exclude" = ret exc
    /\ Permutation (inc ++ exc) df
    /\ (forall r, In r df -> In r inc \/ In r exc)
    /\ (forall r, In r inc -> In r exc -> False).
Proof.
  exists (filter (fun r => str_contains patterns (artist r)) df),
         (filter (fun r => negb (str_contains patterns (artist r))) df).
  rewrite !apply_artist_patterns_compiled by exact Hne.
  repeat split.
  - clear Hne. induction df as [|r df IH]; simpl; [constructor|].
    destruct (str_contains patterns (artist r)); simpl.
    + now constructor.
    + symmetry. apply Permutation_cons_app. now symmetry.
  - intros r Hr. rewrite !filter_In.
    destruct (str_contains patterns (artist r)); auto.
  - intros r H1 H2. apply filter_In in H1 as [_ H1], H2 as [_ H2].
    rewrite H1 in H2. discriminate.
Qed.

Lemma X16_include_exclude_split_witness :
  exists inc exc,
    _apply_artist_patterns two_artists ["beat"] "include" = ret inc
    /\ _apply_artist_patterns two_artists ["beat"] "exclude" = ret exc
    /\ Permutation (inc ++ exc) two_artists
    /\ (forall r, In r two_artists -> In r inc \/ In r exc)
    /\ (forall r, In r inc -> In r exc -> False).
Proof.
  exact (X16_include_exclude_split two_artists ["beat"] ltac:(discriminate)).
Defined.

(** ** More on the event filter *)

Lemma filter_swap {A} (p q : A -> bool) (l : list A) :
  filter p (filter q l) = filter q (filter p l).
Proof. rewrite !filter_comp. apply filter_ext. intros x. apply andb_comm. Qed.

Lemma select_columns_filter (p : option Z -> bool) (l : list RawEvent) :
  select_columns (filter (fun e => p (ms_played e)) l)
  = filter (fun r => p (ms r)) (select_columns l).
Proof.
  induction l as [|e l IH]; [reflexivity|].
  cbn [filter select_columns]. destruct (to_row e) as [r|] eqn:Er.
  - assert (Hms : ms r = ms_played e).
    { unfold to_row in Er.
      destruct (master_metadata_album_artist_name e), (master_metadata_track_name e);
        try discriminate.
      now injection Er as <-. }
    cbn [filter]. rewrite Hms.
    destruct (p (ms_played e)); cbn [select_columns]; now rewrite ?Er, IH.
  - destruct (p (ms_played e)); cbn [select_columns]; now rewrite ?Er, IH.
Qed.

Lemma filter_music_events_min_play (df : list RawEvent) (lo hi : Z)
    (year_start year_end : option Z) :
  lo <= hi ->
  filter_music_events df hi year_start year_end
  = filter (fun e => hi <=? fillna0 (ms_played e))
           (filter_music_events df lo year_start year_end).
Proof.
  intros Hle. unfold filter_music_events.
  set (d := filter _ (filter _ df)).
  assert (E : filter (fun e => hi <=? fillna0 (ms_played e)) d
              = filter (fun e => hi <=? fillna0 (ms_played e))
                  (filter (fun e => lo <=? fillna0 (ms_played e)) d)).
  { rewrite filter_comp. apply filter_ext. intros e.
    destruct (Z.leb_spec hi (fillna0 (ms_played e))); [|now rewrite andb_false_r].
    rewrite andb_true_r. symmetry. apply Z.leb_le. lia. }
  rewrite E.
  set (d' := filter (fun e => lo <=? fillna0 (ms_played e)) d).
  destruct (truthy year_start), (truthy year_end); cbn [orb];
    rewrite ?(filter_swap (fun e => hi <=? fillna0 (ms_played e))); reflexivity.
Qed.

(** X17.  Raising [min_play_ms] only takes rows away: the rows kept
    under the higher bound are the rows kept under the lower bound
    whose play time reaches the higher bound, in the same order. *)
Theorem X17_min_play_ms_monotone (df : list RawEvent) (lo hi : Z)
    (year_start year_end : option Z) (Hle : lo <= hi) :
  _filter_music_rows df hi year_start year_end
  = filter (fun r => hi <=? fillna0 (ms r))
           (_filter_music_rows df lo year_start year_end).
Proof.
  unfold _filter_music_rows.
  rewrite (filter_music_events_min_play df lo hi) by exact Hle.
  apply (select_columns_filter (fun x => hi <=? fillna0 x)).
Qed.

Lemma X17_min_play_ms_monotone_witness :
  _filter_music_rows sample_history 60000 None None
  = filter (fun r => 60000 <=? fillna0 (ms r))
           (_filter_music_rows sample_history 30000 None None).
Proof. apply X17_min_play_ms_monotone. lia. Defined.

(** X18.  The engine does not reject a year range whose end lies before
    its start: no event passes the event filter, and the run ends with
    the error of the missing rows.  (Bounds of 0 count as unset.) *)
Theorem X18_inverted_year_range {SV : SortValues} (patterns : list string)
    (df_raw : list RawEvent) (ys ye : Z)
    (top_artists tracks_per_artist min_play_ms : Z)
    (min_track_total_ms : option Z) (mode : string)
    (Hs : ys <> 0) (He : ye <> 0) (Hinv : ye < ys) :
  _filter_music_rows df_raw min_play_ms (Some ys) (Some ye) = []
  /\ create_playlist patterns df_raw (Some ys) (Some ye) top_artists
       tracks_per_artist min_play_ms min_track_total_ms mode
     = (["[STEP 1/6]"; "[STEP 2/6]"],
        inl (RuntimeError "No valid music rows after filtering.")).
Proof.
  assert (E : _filter_music_rows df_raw min_play_ms (Some ys) (Some ye) = []).
  { unfold _filter_music_rows.
    rewrite filter_music_events_nonzero_bounds by congruence.
    rewrite filter_none; [reflexivity|].
    intros e _. unfold survives, year_within.
    destruct (ts e) as [y|]; [|apply andb_false_r].
    destruct (Z.leb_spec ys y), (Z.leb_spec y ye); try lia;
      cbn [andb]; apply andb_false_r. }
  split; [exact E|]. rewrite create_playlist_steps, E. reflexivity.
Qed.

Lemma X18_inverted_year_range_witness :
  create_playlist (SV := stable_sort_values) [] sample_history (Some 2025) (Some 2023)
    2 2 30000 None "exclude"
  = (["[STEP 1/6]"; "[STEP 2/6]"],
     inl (RuntimeError "No valid music rows after filtering.")).
Proof.
  exact (proj2 (X18_inverted_year_range (SV := stable_sort_values) [] sample_history
                  2025 2023 2 2 30000 None "exclude"
                  ltac:(lia) ltac:(lia) ltac:(lia))).
Defined.

(** ** Keys of the table *)

Lemma distinct_keys_filter {R K} (key : R -> K) (keep : R -> bool) (rows : list R)
    (Hkeys : NoDup (map key rows)) :
  NoDup (map key (filter keep rows)).
Proof.
  induction rows as [|x rows IH]; [exact Hkeys|].
  cbn [map] in Hkeys. inversion Hkeys as [|? ? Hx Hrows]; subst.
  cbn [filter]. destruct (keep x); [|now apply IH].
  cbn [map]. constructor; [|now apply IH]. intros Hin. apply Hx.
  apply in_map_iff in Hin as (y & Hy & Hin). apply filter_In in Hin as [Hin _].
  rewrite <- Hy. now apply in_map.
Qed.

Lemma track_totals_keys_NoDup (df : list Row) : NoDup (map tt_key (track_totals df)).
Proof.
  pose proof (track_totals_sorted_keys df) as H.
  induction H as [|t l Hl IH Ht]; simpl; constructor; [|exact IH].
  intros Hin. apply in_map_iff in Hin as (t' & Hk & Hin).
  rewrite Forall_forall in Ht. specialize (Ht t' Hin). unfold key_before in Ht.
  rewrite Hk in Ht.
  assert (Hr : kcmp (tt_key t) (tt_key t) = Eq) by now apply kcmp_eq.
  congruence.
Qed.

(** X19.  No track occurs twice in the table: the rows differ in
    artist, track or identifier. *)
Theorem X19_table_keys_distinct {SV : SortValues} {SVS : SortValuesSpec SV}
    (df : list Row) (top_artists tracks_per_artist : Z)
    (min_track_total_ms : option Z) :
  NoDup (map (fun row => (row_artist row, tt_track (totals (merged row)), row_uri row))
             (fst (_aggregate_and_order df top_artists tracks_per_artist
                     min_track_total_ms))).
Proof.
  cbn [_aggregate_and_order fst]. unfold ordered.
  eapply Permutation_NoDup.
  { apply Permutation_map. symmetry. apply stable_sort_perm. }
  apply distinct_keys_filter.
  change (fun row => (row_artist row, tt_track (totals (merged row)), row_uri row))
    with (fun row => tt_key (totals (merged row))).
  rewrite <- (map_map merged (fun r => tt_key (totals r))), ranked_merged.
  eapply Permutation_NoDup.
  { apply Permutation_map. symmetry. apply sorted_perm. }
  rewrite <- (map_map totals tt_key), merged_totals by exact SVS.
  apply distinct_keys_filter. unfold track_totals_floor.
  destruct min_track_total_ms; [apply distinct_keys_filter|];
    apply track_totals_keys_NoDup.
Qed.

Lemma X19_table_keys_distinct_witness :
  NoDup (map (fun row => (row_artist row, tt_track (totals (merged row)), row_uri row))
             (fst (_aggregate_and_order (SV := stable_sort_values)
                     three_artists 3 2 None))).
Proof.
  exact (X19_table_keys_distinct (SV := stable_sort_values) three_artists 3 2 None).
Defined.

(** ** The command line *)

Lemma parse_args_mode (argv : cli.Argv) (args : cli.Namespace) :
  cli.parse_args argv = Some args ->
  cli.artists_filter_mode args = "exclude" \/ cli.artists_filter_mode args = "include".
Proof.
  unfold cli.parse_args, cli.choices. cbn [existsb].
  set (mode := cli.or_default (cli.given_artists_filter_mode argv) "exclude").
  destruct (String.eqb_spec mode "exclude") as [E|E];
    [intros [= <-]; now left|].
  destruct (String.eqb_spec mode "include") as [E'|E'];
    [intros [= <-]; now right|].
  discriminate.
Qed.

Lemma validate_years_ok (s e : option Z) :
  cli._validate_years s e = inr tt
  <-> forall a b, s = Some a -> e = Some b -> a <= b.
Proof.
  unfold cli._validate_years. destruct s as [a|], e as [b|];
    try (split; [intros _ ? ? ? ?; congruence|reflexivity]).
  destruct (Z.ltb_spec b a); split; try discriminate; try reflexivity.
  - intros H0. specialize (H0 a b eq_refl eq_refl). lia.
  - intros _ ? ? [= <-] [= <-]. lia.
Qed.

Lemma validate_non_negative_ok (name : string) (value : option Z) :
  cli._validate_non_negative name value = inr tt
  <-> forall v, value = Some v -> 0 <= v.
Proof.
  unfold cli._validate_non_negative. destruct value as [v|];
    [|split; [intros _ ? ?; congruence|reflexivity]].
  destruct (Z.ltb_spec v 0); split; try discriminate; try reflexivity.
  - intros H0. specialize (H0 v eq_refl). lia.
  - intros _ ? [= <-]. lia.
Qed.

Lemma validate_years_error (s e : option Z) (x : exn) :
  cli._validate_years s e = inl x -> exists msg, x = ValueError msg /\ x <> mode_error.
Proof.
  unfold cli._validate_years. destruct s as [a|], e as [b|]; try discriminate.
  destruct (b <? a); [|discriminate]. intros [= <-].
  eexists. split; [reflexivity|]. unfold mode_error. simpl. discriminate.
Qed.

Lemma validate_non_negative_error (value : option Z) (x : exn) :
  cli._validate_non_negative "min_play_ms" value = inl x
  \/ cli._validate_non_negative "min_track_total_ms" value = inl x ->
  exists msg, x = ValueError msg /\ x <> mode_error.
Proof.
  unfold cli._validate_non_negative. destruct value as [v|];
    [|intros [H|H]; discriminate].
  destruct (v <? 0); [|intros [H|H]; discriminate].
  intros [[= <-]|[= <-]]; (eexists; split; [reflexivity|]);
    unfold mode_error; simpl; discriminate.
Qed.



(** X21.  A result reaches the writers only when the mode is one of
    the two known ones, [min_play_ms] and the floor are not negative,
    the year range is not inverted, both loaders succeeded and the
    pipeline handed this result over on what they loaded; the three
    banners were printed and there is an identifier to publish.
    Neither [top_artists] nor [tracks_per_artist] is checked. *)
Theorem X21_cli_hand_over {SV : SortValues} (fs : FileSystem) (argv : cli.Argv)
    (out : list string) (result : list RankedRow * list string)
    (Hmain : cli.main fs argv = (out, cli.HandOver result)) :
  exists args patterns df_raw,
    cli.parse_args argv = Some args
    /\ (cli.artists_filter_mode args = "exclude"
        \/ cli.artists_filter_mode args = "include")
    /\ 0 <= cli.min_play_ms args
    /\ (forall v, cli.min_track_total_ms args = Some v -> 0 <= v)
    /\ (forall s e, cli.year_start args = Some s -> cli.year_end args = Some e -> s <= e)
    /\ _load_artist_patterns fs (cli.artists_filter_file args) = inr patterns
    /\ _load_history fs (cli.source_dir args) = inr df_raw
    /\ create_playlist patterns df_raw (cli.year_start args) (cli.year_end args)
         (cli.top_artists args) (cli.tracks_per_artist args) (cli.min_play_ms args)
         (cli.min_track_total_ms args) (cli.artists_filter_mode args)
       = (out, inr result)
    /\ out = ["[STEP 1/6]"; "[STEP 2/6]"; "[STEP 3/6]"]
    /\ snd result <> [].
Proof.
  unfold cli.main in Hmain.
  destruct (cli.parse_args argv) as [args|] eqn:Hparse; [|discriminate].
  destruct (cli._validate_years (cli.year_start args) (cli.year_end args))
    as [x|[]] eqn:Ey; [discriminate|].
  destruct (cli._validate_non_negative "min_play_ms" (Some (cli.min_play_ms args)))
    as [x|[]] eqn:Ep; [discriminate|].
  destruct (cli._validate_non_negative "min_track_total_ms" (cli.min_track_total_ms args))
    as [x|[]] eqn:Ef; [discriminate|].
  cbv zeta in Hmain. unfold create_playlist_from_files in Hmain.
  destruct (_load_artist_patterns fs (cli.artists_filter_file args))
    as [e|patterns] eqn:Hpat; [discriminate|].
  destruct (_load_history fs (cli.source_dir args)) as [e|df_raw] eqn:Hhist;
    [discriminate|].
  exists args, patterns, df_raw.
  split; [reflexivity|]. split; [now apply (parse_args_mode argv)|].
  split; [apply (proj1 (validate_non_negative_ok _ _) Ep); reflexivity|].
  split; [apply (proj1 (validate_non_negative_ok _ _) Ef)|].
  split; [apply (proj1 (validate_years_ok _ _) Ey)|].
  split; [exact Hpat|]. split; [exact Hhist|].
  unfold stdout, outcome in Hmain. rewrite create_playlist_steps in Hmain |- *.
  destruct (_filter_music_rows df_raw (cli.min_play_ms args) (cli.year_start args)
              (cli.year_end args)) as [|r rows]; [discriminate|].
  destruct (apply_artist_patterns_uniform patterns (cli.artists_filter_mode args))
    as [(_ & _ & _ & H)|[keep H]]; rewrite H in Hmain |- *; [discriminate|].
  unfold ret in Hmain |- *. cbn [fst snd app] in Hmain |- *.
  destruct (snd (_aggregate_and_order (filter keep (r :: rows)) (cli.top_artists args)
                   (cli.tracks_per_artist args) (cli.min_track_total_ms args)))
    as [|u uris] eqn:E; [discriminate|].
  injection Hmain as <- <-. repeat split. cbn [filter] in E. rewrite E. discriminate.
Qed.

Lemma X21_cli_hand_over_witness :
  exists args patterns df_raw,
    cli.parse_args sample_options = Some args
    /\ (cli.artists_filter_mode args = "exclude"
        \/ cli.artists_filter_mode args = "include")
    /\ 0 <= cli.min_play_ms args
    /\ (forall v, cli.min_track_total_ms args = Some v -> 0 <= v)
    /\ (forall s e, cli.year_start args = Some s -> cli.year_end args = Some e -> s <= e)
    /\ _load_artist_patterns sample_fs (cli.artists_filter_file args) = inr patterns
    /\ _load_history sample_fs (cli.source_dir args) = inr df_raw
    /\ create_playlist (SV := stable_sort_values) patterns df_raw
         (cli.year_start args) (cli.year_end args)
         (cli.top_artists args) (cli.tracks_per_artist args) (cli.min_play_ms args)
         (cli.min_track_total_ms args) (cli.artists_filter_mode args)
       = (fst (cli.main (SV := stable_sort_values) sample_fs sample_options),
          inr (_aggregate_and_order (SV := stable_sort_values)
                 (_filter_music_rows [event_of_2024; event_without_timestamp]
                    30000 None None) 30 5 None))
    /\ fst (cli.main (SV := stable_sort_values) sample_fs sample_options)
       = ["[STEP 1/6]"; "[STEP 2/6]"; "[STEP 3/6]"]
    /\ snd (_aggregate_and_order (SV := stable_sort_values)
              (_filter_music_rows [event_of_2024; event_without_timestamp]
                 30000 None None) 30 5 None) <> [].
Proof.
  apply (X21_cli_hand_over (SV := stable_sort_values) sample_fs sample_options).
  vm_compute. reflexivity.
Defined.

(** X22.  A mode other than [exclude] and [include] never reaches the
    engine: the parser ends the run with status 2 before anything is
    read or printed, so no run of the command line ends with the
    error of the mode. *)
Theorem X22_cli_unknown_mode {SV : SortValues} (fs : FileSystem) (argv : cli.Argv) :
  (forall mode, cli.given_artists_filter_mode argv = Some mode ->
                mode <> "exclude" -> mode <> "include" ->
                cli.main fs argv = ([], cli.Exit 2 None))
  /\ (forall out status,
        cli.main fs argv <> (out, cli.Exit status (Some (Raised mode_error)))).
Proof.
  split.
  - intros mode Hm He Hi. unfold cli.main, cli.parse_args, cli.choices.
    rewrite Hm. cbn [cli.or_default existsb].
    apply String.eqb_neq in He, Hi. now rewrite He, Hi.
  - intros out status Hmain. unfold cli.main in Hmain.
    destruct (cli.parse_args argv) as [args|] eqn:Hparse; [|discriminate].
    pose proof (parse_args_mode argv args Hparse) as Hmode.
    destruct (cli._validate_years (cli.year_start args) (cli.year_end args))
      as [x|[]] eqn:Ey.
    { apply validate_years_error in Ey as (msg & _ & Hx). congruence. }
    destruct (cli._validate_non_negative "min_play_ms" (Some (cli.min_play_ms args)))
      as [x|[]] eqn:Ep.
    { destruct (validate_non_negative_error _ x (or_introl Ep)) as (msg & _ & Hx).
      congruence. }
    destruct (cli._validate_non_negative "min_track_total_ms"
                (cli.min_track_total_ms args)) as [x|[]] eqn:Ef.
    { destruct (validate_non_negative_error _ x (or_intror Ef)) as (msg & _ & Hx).
      congruence. }
    cbv zeta in Hmain. unfold create_playlist_from_files in Hmain.
    destruct (_load_artist_patterns fs (cli.artists_filter_file args))
      as [e|patterns] eqn:Hpat.
    { unfold _load_artist_patterns in Hpat.
      destruct (cli.artists_filter_file args) as [p|]; [|discriminate].
      destruct (String.eqb p ""); [discriminate|].
      destruct (read_lines fs p); [discriminate|].
      injection Hpat as <-. discriminate. }
    destruct (_load_history fs (cli.source_dir args)) as [e|df_raw] eqn:Hhist.
    { unfold _load_history in Hhist.
      destruct (negb (isdir fs (cli.source_dir args)));
        [injection Hhist as <-; discriminate|].
      destruct (json_files fs (cli.source_dir args));
        [injection Hhist as <-; discriminate|].
      destruct (read_frames _ _); [|discriminate].
      injection Hhist as <-. discriminate. }
    unfold stdout, outcome in Hmain. rewrite create_playlist_steps in Hmain.
    destruct (_filter_music_rows df_raw (cli.min_play_ms args) (cli.year_start args)
                (cli.year_end args)) as [|r rows]; [discriminate|].
    destruct (apply_artist_patterns_uniform patterns (cli.artists_filter_mode args))
      as [(_ & Hi & He & _)|[keep H]]; [tauto|].
    rewrite H in Hmain. unfold ret in Hmain. cbn [fst snd app] in Hmain.
    destruct (snd (_aggregate_and_order (filter keep (r :: rows)) (cli.top_artists args)
                     (cli.tracks_per_artist args) (cli.min_track_total_ms args)));
      discriminate.
Qed.

(** ** From the table to the playlist *)

Lemma added_items_all {Char} (user_id name : string) (uris : list string)
    (description : list Char) (playlist_id : string) (spotify_url : option string) :
  flat_map added_items
    (fst (_create_playlist_and_add user_id name uris description
            playlist_id spotify_url))
  = uris.
Proof.
  cbn [_create_playlist_and_add fst flat_map added_items app].
  rewrite flat_map_concat_map, map_map.
  change (fun x => added_items
                     (@playlist_add_items Char playlist_id
                        (firstn 100 (skipn x uris))))
    with (fun x => firstn 100 (skipn x uris)).
  unfold range_step. rewrite batches_concat. apply firstn_all2.
  pose proof (range_step_100_covers (List.length uris)) as H.
  unfold range_step in H. rewrite length_map, length_seq in H.
  change (100 - 1)%nat with 99%nat in H. exact H.
Qed.

(** X23.  Publishing what the engine hands over adds each track of the
    table that has an identifier to the playlist once and no more, and
    nothing else: the identifiers added over all the calls are without
    repetition, and they are the identifiers of the rows of the
    table. *)
Theorem X23_each_track_added_once {SV : SortValues} {Char} (df : list Row)
    (top_artists tracks_per_artist : Z) (min_track_total_ms : option Z)
    (user_id name : string) (description : list Char)
    (playlist_id : string) (spotify_url : option string) :
  let result := _aggregate_and_order df top_artists tracks_per_artist
                  min_track_total_ms in
  let calls := fst (_create_playlist_and_add user_id name (snd result) description
                      playlist_id spotify_url) in
  NoDup (flat_map added_items calls)
  /\ forall u, In u (flat_map added_items calls)
               <-> exists row, In row (fst result) /\ row_uri row = Some u.
Proof.
  cbv zeta. rewrite added_items_all. cbn [_aggregate_and_order fst snd]. split.
  - apply dedup_walk_NoDup.
  - intros u. apply dedup_uris_In.
Qed.
